(** * go-pivotaltracker: paginated listing and lazy iteration

    A shallow embedding of the story and epic services of the Pivotal
    Tracker client (package [pivotal]): the request builders, the eager
    [List], the lazy [Iterate]/[Next] pair and the epic [Get]/[Update]
    calls, together with the pagination cursor they are built on.

    Go's [int] is embedded as [Z], strings as [string], slices as [list],
    pointers as [option] (nil is [None]) and the [error] interface as
    [option error].  The remote service is an explicit transport function,
    and every call that reaches it appends to a log of exchanges, so that
    "no I/O" and "which request was issued" are statements about that log. *)

From Stdlib Require Import ZArith List String Ascii Bool Lia DecimalString.
From Stdlib Require Import DecimalZ DecimalPos.
Import ListNotations.

Local Open Scope string_scope.
Local Open Scope list_scope.
Local Open Scope Z_scope.

(** ** Formatting and escaping (Go's fmt and net/url) *)

(** [fmt.Sprintf("%v", n)] for an [int]: decimal digits with a leading
    minus sign for negative numbers. *)
Definition Sprint_int (n : Z) : string :=
  NilZero.string_of_int (Z.to_int n).

Definition upperhex (n : N) : ascii :=
  match n with
  | 0%N => "0" | 1%N => "1" | 2%N => "2" | 3%N => "3"
  | 4%N => "4" | 5%N => "5" | 6%N => "6" | 7%N => "7"
  | 8%N => "8" | 9%N => "9" | 10%N => "A" | 11%N => "B"
  | 12%N => "C" | 13%N => "D" | 14%N => "E" | _ => "F"
  end%char.

Definition between (lo hi c : ascii) : bool :=
  ((N_of_ascii lo <=? N_of_ascii c) && (N_of_ascii c <=? N_of_ascii hi))%N.

(** [url.shouldEscape] in query-component mode: only the unreserved
    characters of RFC 3986 go through unchanged. *)
Definition shouldEscape (c : ascii) : bool :=
  if between "a" "z" c || between "A" "Z" c || between "0" "9" c then false
  else if (c =? "-")%char || (c =? "_")%char || (c =? ".")%char
          || (c =? "~")%char then false
  else true.

(** [url.QueryEscape]: a space becomes [+], every other escaped byte
    becomes [%XX] in upper-case hexadecimal. *)
Fixpoint QueryEscape (s : string) : string :=
  match s with
  | EmptyString => EmptyString
  | String c rest =>
      if (c =? " ")%char then String "+" (QueryEscape rest)
      else if shouldEscape c then
        String "%"
          (String (upperhex (N.shiftr (N_of_ascii c) 4))
             (String (upperhex (N.land (N_of_ascii c) 15))
                (QueryEscape rest)))
      else String c (QueryEscape rest)
  end.

(** ** Resource records *)

(** [time.Time], kept as an instant in Unix nanoseconds. *)
Definition Time := Z.

(** [float64], kept as its IEEE-754 bit pattern; no arithmetic is done on
    estimates here. *)
Definition float64 := Z.

Record Label := mkLabel {
  Label_Id : Z;
  Label_ProjectId : Z;
  Label_Name : string;
  Label_CreatedAt : option Time;
  Label_UpdatedAt : option Time;
  Label_Kind : string
}.

Record Person := mkPerson {
  Person_Id : Z;
  Person_Name : string;
  Person_Email : string;
  Person_Initials : string;
  Person_Username : string;
  Person_Kind : string
}.

Record Comment := mkComment {
  Comment_Id : Z;
  Comment_StoryId : Z;
  Comment_EpicId : Z;
  Comment_PersonId : Z;
  Comment_Text : string;
  Comment_FileAttachmentIds : list Z;
  Comment_GoogleAttachmentIds : list Z;
  Comment_CommitType : string;
  Comment_CommitIdentifier : string;
  Comment_CreatedAt : option Time;
  Comment_UpdatedAt : option Time
}.

Record Story := mkStory {
  Story_Id : Z;
  Story_ProjectId : Z;
  Story_Name : string;
  Story_Description : string;
  Story_Type : string;
  Story_State : string;
  Story_Estimate : option float64;
  Story_AcceptedAt : option Time;
  Story_Deadline : option Time;
  Story_RequestedById : Z;
  Story_OwnerIds : list Z;
  Story_LabelIds : list Z;
  Story_Labels : list (option Label);
  Story_TaskIds : list Z;
  Story_Tasks : list Z;
  Story_FollowerIds : list Z;
  Story_CommentIds : list Z;
  Story_CreatedAt : option Time;
  Story_UpdatedAt : option Time;
  Story_IntegrationId : Z;
  Story_ExternalId : string;
  Story_URL : string
}.

Record Epic := mkEpic {
  Epic_ID : Z;
  Epic_ProjectID : Z;
  Epic_Name : string;
  Epic_LabelID : Z;
  Epic_Description : string;
  Epic_CommentIDs : list Z;
  Epic_FollowerIDs : list Z;
  Epic_CreatedAt : option Time;
  Epic_UpdatedAt : option Time;
  Epic_AfterID : Z;
  Epic_BeforeID : Z;
  Epic_URL : string;
  Epic_CompletedAt : option Time;
  Epic_Kind : string
}.

Record EpicRequest := mkEpicRequest {
  EpicRequest_ProjectID : Z;
  EpicRequest_Name : string;
  EpicRequest_Label : Label;
  EpicRequest_LabelID : Z;
  EpicRequest_Description : string;
  EpicRequest_Comments : list Comment;
  EpicRequest_CommentIDs : list Z;
  EpicRequest_Followers : list Person;
  EpicRequest_FollowerIDs : list Z;
  EpicRequest_AfterID : Z;
  EpicRequest_BeforeID : Z
}.

(** Number of items to fetch at once when getting paginated response. *)
Definition PageLimit : Z := 10.

(** ** Errors *)

(** The values that travel on Go's [error] channel in this package:
    [io.EOF], the failures surfaced by the transport collaborator, and the
    local validation error [ErrFieldNotSet]. *)
Inductive error : Type :=
| io_EOF
| TransportError (status : Z)
| DecodeError (msg : string)
| ErrFieldNotSet (field : string).

Definition error_eqb (a b : error) : bool :=
  match a, b with
  | io_EOF, io_EOF => true
  | TransportError x, TransportError y => x =? y
  | DecodeError x, DecodeError y => (x =? y)%string
  | ErrFieldNotSet x, ErrFieldNotSet y => (x =? y)%string
  | _, _ => false
  end.

(** A true failure, as opposed to the end-of-sequence sentinel. *)
Definition is_failure (e : error) : Prop := e <> io_EOF.

(** ** The transport collaborator *)

(** The outbound document of a request. *)
Inductive Body : Type :=
| EpicRequestBody (epic : EpicRequest).

(** An outbound request descriptor: method, path with its query string,
    optional body, and the offset/limit pair a page fetch appends. *)
Record Request := mkRequest {
  req_method : string;
  req_url : string;
  req_body : option Body;
  req_paging : option (Z * Z)
}.

(** Response metadata; for paginated endpoints it carries the total item
    count reported by the service. *)
Record Metadata := mkMetadata {
  pagination_total : Z
}.

(** What one round trip produces: metadata and a decoded document of type
    [D], or an error (possibly with the metadata of a non-2xx answer). *)
Inductive Outcome (D : Type) : Type :=
| Success (meta : Metadata) (doc : D)
| Failure (meta : option Metadata) (err : error).

Arguments Success {D} meta doc.
Arguments Failure {D} meta err.

Record Exchange (D : Type) := mkExchange {
  ex_request : Request;
  ex_outcome : Outcome D
}.

Arguments mkExchange {D} _ _.
Arguments ex_request {D} _.
Arguments ex_outcome {D} _.

(** The log of exchanges so far, oldest first. *)
Definition World (D : Type) := list (Exchange D).

(** The remote service as seen by the client: its answer to a request may
    depend on everything exchanged before. *)
Definition Transport (D : Type) := World D -> Request -> Outcome D.

(** Modelled from the spec: [Client.NewRequest], of the transport layer,
    is not among the sources.  "Constructs a request against the
    configured base endpoint, serializing body as the outbound document
    when present."  Construction of the descriptor itself is modelled as
    succeeding; the pair mirrors Go's [(req, err)]. *)
Definition NewRequest (method urlStr : string) (body : option Body)
  : Request * option error :=
  (mkRequest method urlStr body None, None).

(** Modelled from the spec: [Client.Do], of the transport layer, is not
    among the sources.  "Performs the round trip, decodes the response
    document into Target when Target is non-null, and returns metadata
    including, for paginated endpoints, a total-item-count field."  The
    round trip is recorded in the log. *)
Definition Do {D : Type} (tr : Transport D) (req : Request) (w : World D)
  : World D * Outcome D :=
  let out := tr w req in
  (w ++ [mkExchange req out], out).

(** ** The pagination cursor *)

(** A fallible result of the cursor layer: Go's [(value, err)] with
    exactly one side set. *)
Inductive result (T : Type) : Type :=
| Ok (v : T)
| Err (e : error).

Arguments Ok {T} v.
Arguments Err {T} e.

(** Modelled from the spec: the [cursor] struct of the pagination file,
    which is not among the sources.  It "holds the RequestBuilder, the
    configured page size limit (0 meaning fetch the server's reported
    maximum in one call, a positive integer meaning fetch that many items
    per call), the current zero-based offset into the remote collection,
    and a total-item-count estimate". *)
Record cursor := mkCursor {
  requestFn : unit -> Request;
  limit : Z;
  offset : Z;
  total : Z
}.

(** Modelled from the spec: the request of a page fetch, which the
    absent [cursor.next] builds.  "Each page fetch needs a request with
    an updated offset/limit query parameter appended." *)
Definition withPaging (req : Request) (off lim : Z) : Request :=
  mkRequest (req_method req) (req_url req) (req_body req) (Some (off, lim)).

(** Modelled from the spec: the per-call limit of a page fetch, which the
    absent [cursor.next] computes.  "When limit is 0, the effective
    per-call limit must be derived from the server's total count reported
    on the very first call, so that the request builder asks for at least
    that many items."  The count used is the cursor's estimate, which at
    the first page fetch is the total of that very first call. *)
Definition effectiveLimit (c : cursor) : Z :=
  if limit c =? 0 then total c else limit c.

Section Cursor.

Context {A : Type}.

(** Modelled from the spec: [newCursor], which is not among the sources.
    The total estimate is "obtained from the first response's metadata":
    construction sends the builder's request as it is, with no decoding
    target, and keeps the reported total; it "performs no fetch beyond
    what's needed to size the cursor".  This is the first of the two
    requests the comment on [List] speaks of. *)
Definition newCursor (client : Transport (list A))
           (requestFn : unit -> Request) (limit : Z) (w : World (list A))
  : World (list A) * result cursor :=
  let '(w', out) := Do client (requestFn tt) w in
  match out with
  | Failure _ e => (w', Err e)
  | Success meta _ =>
      (w', Ok (mkCursor requestFn limit 0 (pagination_total meta)))
  end.

(** Modelled from the spec: [cursor.next], which is not among the
    sources.  "Fetch the next page of raw items from the remote service
    using the stored RequestBuilder plus the cursor's current offset and
    limit, decode the page into the accumulator, update offset += limit
    (or offset += len(page) when limit is the fetch-all sentinel 0), and
    update the cursor's total estimate from the response.  Returns the
    number of items fetched in this call and an error."  The page is
    appended to the accumulator [v]; a transport or decode failure is
    "propagated unchanged" and leaves cursor and accumulator as they
    were. *)
Definition cursor_next (client : Transport (list A))
           (c : cursor) (w : World (list A)) (v : list A)
  : (cursor * World (list A) * list A) * (Z * option error) :=
  let req := withPaging (requestFn c tt) (offset c) (effectiveLimit c) in
  let '(w', out) := Do client req w in
  match out with
  | Failure _ e => ((c, w', v), (0, Some e))
  | Success meta page =>
      let n := Z.of_nat (List.length page) in
      let step := if limit c =? 0 then n else limit c in
      ((mkCursor (requestFn c) (limit c) (offset c + step)
                 (pagination_total meta),
        w', v ++ page),
       (n, None))
  end.

(** Modelled from the spec: [cursor.all], which is not among the
    sources.  "Repeatedly invoke the page-fetch primitive, appending each
    page's items to a cumulative accumulator, until the cursor's offset
    reaches or exceeds the most recently observed total.  Returns the
    full ordered sequence of items once exhausted, or the first error
    encountered (partial results are discarded on error)."  The total is
    tested before every fetch, so a zero total costs no fetch.  The loop
    has no bound of its own: [fuel] bounds the number of iterations and
    [None] means it ran out. *)
Fixpoint cursor_all (client : Transport (list A)) (fuel : nat)
         (c : cursor) (w : World (list A)) (v : list A)
  : option (cursor * World (list A) * (list A * option error)) :=
  match fuel with
  | O => None
  | S fuel' =>
      if total c <=? offset c then Some (c, w, (v, None))
      else
        let '((c', w', v'), (_, err)) := cursor_next client c w v in
        match err with
        | Some e => Some (c', w', ([], Some e))
        | None => cursor_all client fuel' c' w' v'
        end
  end.

End Cursor.

(** The page-fetch primitive as the typed cursors see it: it may change
    the cursor, the world and the buffer it is handed, and reports a count
    and an error. *)
Definition PageFetch (A : Type) : Type :=
  cursor -> World (list A) -> list A ->
  (cursor * World (list A) * list A) * (Z * option error).

(** ** Stories *)

Definition newStoriesRequestFunc (projectId : Z) (filter : string)
  : unit -> Request :=
  fun _ =>
    let u := ("projects/" ++ Sprint_int projectId ++ "/stories")%string in
    let u := if (filter =? EmptyString)%string then u
             else (u ++ "?filter=" ++ QueryEscape filter)%string in
    fst (NewRequest "GET" u None).

Definition newEpicsRequestFunc (projectID : Z) (filter : string)
  : unit -> Request :=
  fun _ =>
    let u := ("projects/" ++ Sprint_int projectID ++ "/epics")%string in
    let u := if (filter =? EmptyString)%string then u
             else (u ++ "?filter=" ++ QueryEscape filter)%string in
    fst (NewRequest "GET" u None).

(** [StoryCursor] and [EpicCursor] are the same struct, and their [Next]
    the same method body, at two item types; they are embedded once, over
    the pointed-to type [T], and named at both instances below.  The
    embedded [*cursor] is the field [tc_cursor]. *)
Record TypedCursor (T : Type) := mkTypedCursor {
  tc_cursor : cursor;
  buff : list (option T)
}.

Arguments mkTypedCursor {T} _ _.
Arguments tc_cursor {T} _.
Arguments buff {T} _.

Definition StoryCursor := TypedCursor Story.
Definition EpicCursor := TypedCursor Epic.

Section TypedNext.

Context {T : Type}.

(** The method [next] promoted from the embedded cursor.  [Next] is
    stated over an arbitrary page-fetch primitive: what it does with
    its buffer does not depend on how pages are fetched. *)
Variable next : PageFetch (option T).

(** The second half of [Next]: signal [io.EOF] on an empty buffer,
    otherwise pop the front item; [err] is the named result as the first
    half left it. *)
Definition Next_pop (c : TypedCursor T) (w : World (list (option T)))
           (err : option error)
  : (TypedCursor T * World (list (option T))) * (option T * option error) :=
  if (List.length (buff c) =? 0)%nat then
    ((c, w), (None, Some io_EOF))
  else
    match buff c with
    | s :: rest => ((mkTypedCursor (tc_cursor c) rest, w), (s, err))
    | [] => ((c, w), (None, err))
    end.

(** [Next] returns the next item.  In case there are no more items,
    [io.EOF] is returned as an error. *)
Definition TypedCursor_Next (c : TypedCursor T) (w : World (list (option T)))
  : (TypedCursor T * World (list (option T))) * (option T * option error) :=
  if (List.length (buff c) =? 0)%nat then
    let '((cur', w', buff'), (_, err)) := next (tc_cursor c) w (buff c) in
    match err with
    | Some e => ((mkTypedCursor cur' buff', w'), (None, Some e))
    | None => Next_pop (mkTypedCursor cur' buff') w' err
    end
  else Next_pop c w None.

End TypedNext.

Definition StoryCursor_Next (next : PageFetch (option Story))
  : StoryCursor -> World (list (option Story)) ->
    (StoryCursor * World (list (option Story)))
    * (option Story * option error) :=
  TypedCursor_Next next.

Definition EpicCursor_Next (next : PageFetch (option Epic))
  : EpicCursor -> World (list (option Epic)) ->
    (EpicCursor * World (list (option Epic))) * (option Epic * option error) :=
  TypedCursor_Next next.

(** [List] returns all stories matching the filter in case the filter is
    specified.  The result is [None] only when [fuel] does not cover the
    page fetches of the drain. *)
Definition StoryService_List (client : Transport (list (option Story)))
           (fuel : nat) (projectId : Z) (filter : string)
           (w : World (list (option Story)))
  : option (World (list (option Story))
            * (list (option Story) * option error)) :=
  let reqFunc := newStoriesRequestFunc projectId filter in
  match newCursor client reqFunc 0 w with
  | (w1, Err err) => Some (w1, ([], Some err))
  | (w1, Ok cursor) =>
      match cursor_all client fuel cursor w1 [] with
      | None => None
      | Some (_, w2, (_, Some err)) => Some (w2, ([], Some err))
      | Some (_, w2, (stories, None)) => Some (w2, (stories, None))
      end
  end.

(** [Iterate] returns a cursor that can be used to iterate over the
    stories specified by the filter.  More stories are fetched on demand
    as needed. *)
Definition StoryService_Iterate (client : Transport (list (option Story)))
           (projectId : Z) (filter : string)
           (w : World (list (option Story)))
  : World (list (option Story)) * (option StoryCursor * option error) :=
  let reqFunc := newStoriesRequestFunc projectId filter in
  match newCursor client reqFunc PageLimit w with
  | (w1, Err err) => (w1, (None, Some err))
  | (w1, Ok cursor) => (w1, (Some (mkTypedCursor cursor []), None))
  end.

(** ** Epics *)

Definition EpicService_List (client : Transport (list (option Epic)))
           (fuel : nat) (projectID : Z) (filter : string)
           (w : World (list (option Epic)))
  : option (World (list (option Epic))
            * (list (option Epic) * option error)) :=
  let reqFunc := newEpicsRequestFunc projectID filter in
  match newCursor client reqFunc 0 w with
  | (w1, Err err) => Some (w1, ([], Some err))
  | (w1, Ok cursor) =>
      match cursor_all client fuel cursor w1 [] with
      | None => None
      | Some (_, w2, (_, Some err)) => Some (w2, ([], Some err))
      | Some (_, w2, (epics, None)) => Some (w2, (epics, None))
      end
  end.

Definition EpicService_Iterate (client : Transport (list (option Epic)))
           (projectID : Z) (filter : string)
           (w : World (list (option Epic)))
  : World (list (option Epic)) * (option EpicCursor * option error) :=
  let reqFunc := newEpicsRequestFunc projectID filter in
  match newCursor client reqFunc PageLimit w with
  | (w1, Err err) => (w1, (None, Some err))
  | (w1, Ok cursor) => (w1, (Some (mkTypedCursor cursor []), None))
  end.

(** [Get] returns an [Epic] by ID: the decoded epic, the response metadata
    and the error. *)
Definition EpicService_Get (client : Transport Epic)
           (projectID epicID : Z) (w : World Epic)
  : World Epic * (option Epic * option Metadata * option error) :=
  let u := ("projects/" ++ Sprint_int projectID ++ "/epics/"
              ++ Sprint_int epicID)%string in
  let '(req, err) := NewRequest "GET" u None in
  match err with
  | Some e => (w, (None, None, Some e))
  | None =>
      match Do client req w with
      | (w', Failure resp e) => (w', (None, resp, Some e))
      | (w', Success resp epic) => (w', (Some epic, Some resp, None))
      end
  end.

(** [Update] will update an [Epic] with an [EpicRequest]. *)
Definition EpicService_Update (client : Transport Epic)
           (projectID epicID : Z) (epic : EpicRequest) (w : World Epic)
  : World Epic * (option Epic * option Metadata * option error) :=
  let u := ("projects/" ++ Sprint_int projectID ++ "/stories/"
              ++ Sprint_int epicID)%string in
  let '(req, err) := NewRequest "PUT" u (Some (EpicRequestBody epic)) in
  match err with
  | Some e => (w, (None, None, Some e))
  | None =>
      match Do client req w with
      | (w', Failure resp e) => (w', (None, resp, Some e))
      | (w', Success resp updatedEpic) =>
          (w', (Some updatedEpic, Some resp, None))
      end
  end.

(** ** Callers and simulated services

    What follows is not part of the package: the loops a caller writes
    around [Next], the observations made on the exchange log, and the
    simulated services the properties are stated against. *)

Section Callers.

Context {T : Type}.

Variable next : PageFetch (option T).

(** Call [Next] until it signals [io.EOF], collecting the items; a
    failure stops the loop and is reported. *)
Fixpoint Next_until_EOF (fuel : nat) (c : TypedCursor T)
         (w : World (list (option T)))
  : option (World (list (option T)) * (list (option T) * option error)) :=
  match fuel with
  | O => None
  | S fuel' =>
      let '((c', w'), (s, err)) := TypedCursor_Next next c w in
      match err with
      | Some io_EOF => Some (w', ([], None))
      | Some e => Some (w', ([], Some e))
      | None =>
          match Next_until_EOF fuel' c' w' with
          | None => None
          | Some (w'', (rest, e)) => Some (w'', (s :: rest, e))
          end
      end
  end.

(** The results of [k] successive calls to [Next]. *)
Fixpoint Next_times (k : nat) (c : TypedCursor T)
         (w : World (list (option T)))
  : list (option T * option error) :=
  match k with
  | O => []
  | S k' =>
      let '((c', w'), r) := TypedCursor_Next next c w in
      r :: Next_times k' c' w'
  end.

End Callers.

(** [Iterate] followed by [Next] until end-of-sequence. *)
Definition StoryService_Iterate_all (client : Transport (list (option Story)))
           (fuel : nat) (projectId : Z) (filter : string)
           (w : World (list (option Story)))
  : option (World (list (option Story))
            * (list (option Story) * option error)) :=
  match StoryService_Iterate client projectId filter w with
  | (w1, (Some c, None)) =>
      Next_until_EOF (cursor_next client) fuel c w1
  | (w1, (_, Some err)) => Some (w1, ([], Some err))
  | (w1, (None, None)) => Some (w1, ([], None))
  end.

Definition EpicService_Iterate_all (client : Transport (list (option Epic)))
           (fuel : nat) (projectID : Z) (filter : string)
           (w : World (list (option Epic)))
  : option (World (list (option Epic))
            * (list (option Epic) * option error)) :=
  match EpicService_Iterate client projectID filter w with
  | (w1, (Some c, None)) =>
      Next_until_EOF (cursor_next client) fuel c w1
  | (w1, (_, Some err)) => Some (w1, ([], Some err))
  | (w1, (None, None)) => Some (w1, ([], None))
  end.

Section Simulated.

Context {A : Type}.

(** A collection served page by page.  A page request for [lim] items
    from [off] is answered with the items from [off] on, at most [lim]
    of them and at most [cap k] of them, where [k] counts the exchanges
    so far; every answer reports the size of the collection. *)
Definition serve (items : list A) (cap : nat -> nat) : Transport (list A) :=
  fun w req =>
    Success (mkMetadata (Z.of_nat (List.length items)))
      match req_paging req with
      | Some (off, lim) =>
          firstn (Nat.min (Z.to_nat lim) (cap (List.length w)))
                 (skipn (Z.to_nat off) items)
      | None => items
      end.

(** The same service when it never cuts a page short of the request. *)
Definition serve_exact (items : list A) : Transport (list A) :=
  serve items (fun _ => List.length items).

(** A collection that changes between requests: exchange [k] is answered
    from [colls k]. *)
Definition serve_volatile (colls : nat -> list A) : Transport (list A) :=
  fun w req => serve_exact (colls (List.length w)) w req.

(** A service whose exchange number [k] fails with [e]. *)
Definition failing_at (k : nat) (e : error) (tr : Transport (list A))
  : Transport (list A) :=
  fun w req =>
    if (List.length w =? k)%nat then Failure None e else tr w req.

(** The service answers from [items], or fails with a true failure. *)
Definition serves_or_fails (tr : Transport (list A)) (items : list A)
           (cap : nat -> nat) : Prop :=
  forall w req,
    tr w req = serve items cap w req \/
    exists meta e, is_failure e /\ tr w req = Failure meta e.

(** Every total the service reports is at most [B]. *)
Definition totals_bounded (tr : Transport (list A)) (B : Z) : Prop :=
  forall w req meta page,
    tr w req = Success meta page -> pagination_total meta <= B.

(** The service answers a request for at least one item with an empty
    page only when the requested offset is at or past the total it
    reports. *)
Definition empty_page_at_end (tr : Transport (list A)) : Prop :=
  forall w req off lim meta,
    tr w req = Success meta [] ->
    req_paging req = Some (off, lim) -> 0 <= off -> 0 < lim ->
    pagination_total meta <= off.

(** The pages delivered to page fetches, in the order of the log. *)
Definition fetched_pages (w : World (list A)) : list (list A) :=
  flat_map
    (fun ex =>
       match req_paging (ex_request ex), ex_outcome ex with
       | Some _, Success _ page => [page]
       | _, _ => []
       end) w.

(** The offset/limit pairs of the page fetches, in the order of the
    log. *)
Definition page_requests (w : World (list A)) : list (Z * Z) :=
  flat_map
    (fun ex =>
       match req_paging (ex_request ex) with
       | Some p => [p]
       | None => []
       end) w.

(** The total most recently reported in the log, [d] if none was. *)
Definition last_total (w : World (list A)) (d : Z) : Z :=
  fold_left
    (fun acc ex =>
       match ex_outcome ex with
       | Success meta _ => pagination_total meta
       | Failure _ _ => acc
       end) w d.

(** A failed exchange. *)
Definition failed_with (ex : Exchange (list A)) (e : error) : Prop :=
  exists meta, ex_outcome ex = Failure meta e.

End Simulated.

(** The empty filter. *)
Definition no_filter : string := EmptyString.

(** A story and an epic that carry only an id. *)
Definition story_of_id (id : Z) : option Story :=
  Some (mkStory id 0 no_filter no_filter no_filter no_filter None None None
                0 [] [] [] [] [] [] [] None None 0 no_filter no_filter).

Definition epic_of_id (id : Z) : option Epic :=
  Some (mkEpic id 0 no_filter 0 no_filter [] [] None None 0 0 no_filter None
               no_filter).

(** Ids [from], [from+1], ..., [n] of them. *)
Fixpoint ids (from : Z) (n : nat) : list Z :=
  match n with
  | O => []
  | S n' => from :: ids (from + 1) n'
  end.

(** ** Observations on listings and iterations *)

(** The three results of [Next] that the pair [(item, err)] encodes. *)
Inductive NextOutcome (T : Type) : Type :=
| Item (s : option T)
| EndOfSequence
| Failed (e : error).

Arguments Item {T} s.
Arguments EndOfSequence {T}.
Arguments Failed {T} e.

Definition outcome_of {T : Type} (r : option T * option error)
  : NextOutcome T :=
  match snd r with
  | None => Item (fst r)
  | Some io_EOF => EndOfSequence
  | Some e => Failed e
  end.

Definition pair_of {T : Type} (o : NextOutcome T) : option T * option error :=
  match o with
  | Item s => (s, None)
  | EndOfSequence => (None, Some io_EOF)
  | Failed e => (None, Some e)
  end.

(** The body shared by the two [List] methods, with the page size handed
    to [newCursor] as a parameter: [List] is the instance at the sentinel
    0. *)
Definition list_with_limit {A : Type} (client : Transport (list A))
           (reqFunc : unit -> Request) (lim : Z) (fuel : nat)
           (w : World (list A))
  : option (World (list A) * (list A * option error)) :=
  match newCursor client reqFunc lim w with
  | (w1, Err err) => Some (w1, ([], Some err))
  | (w1, Ok cursor) =>
      match cursor_all client fuel cursor w1 [] with
      | None => None
      | Some (_, w2, (_, Some err)) => Some (w2, ([], Some err))
      | Some (_, w2, (items, None)) => Some (w2, (items, None))
      end
  end.

(** An eager listing started in world [w] returned exactly [items],
    without error, as the concatenation in log order of the pages it
    fetched, none of them longer than [P]. *)
Definition delivers {A : Type}
           (r : option (World (list A) * (list A * option error)))
           (w : World (list A)) (items : list A) (P : nat) : Prop :=
  exists new result,
    r = Some (w ++ new, (result, None))
    /\ result = items
    /\ List.length result = List.length items
    /\ result = List.concat (fetched_pages new)
    /\ Forall (fun pg => (List.length pg <= P)%nat) (fetched_pages new).

(** An eager listing started in world [w] ended in world [w'] with the
    pair [(result, err)]: whenever one of its exchanges failed the pair is
    that error with no items, every error it returns is the error of one
    of its exchanges, and an error never comes with items. *)
Definition all_or_nothing {A : Type} (w w' : World (list A))
           (result : list A) (err : option error) : Prop :=
  exists new,
    w' = w ++ new
    /\ (forall ex e, In ex new -> failed_with ex e ->
                     err = Some e /\ result = [])
    /\ (forall e, err = Some e -> exists ex, In ex new /\ failed_with ex e)
    /\ (err <> None -> result = []).

(** Exchange number [k] of the service fails with [e]. *)
Definition fails_at {A : Type} (client : Transport (list A)) (k : nat)
           (e : error) : Prop :=
  forall w req, List.length w = k -> client w req = Failure None e.

(** No result in the list is a true failure. *)
Definition no_failure {T : Type} (rs : list (option T * option error)) : Prop :=
  Forall (fun r => forall e, snd r = Some e -> e = io_EOF) rs.

(** Every result in the list is the end-of-sequence signal. *)
Definition all_EOF {T : Type} (rs : list (option T * option error)) : Prop :=
  Forall (fun r => r = (None, Some io_EOF)) rs.

(** What a cursor on the collection [items] has still to deliver. *)
Definition remaining {A : Type} (items : list A) (c : cursor) : list A :=
  skipn (Z.to_nat (offset c)) items.

(** The cursor's page size is honoured by the service: it is the
    sentinel 0, or the service never cuts a page below it. *)
Definition limit_honoured {A : Type} (items : list A) (cap : nat -> nat)
           (c : cursor) : Prop :=
  limit c = 0 \/
  forall k, (Nat.min (Z.to_nat (limit c)) (List.length items) <= cap k)%nat.

(** Nothing is buffered and the offset is past the collection [items]. *)
Definition exhausted {T : Type} (items : list (option T))
           (c : TypedCursor T) : Prop :=
  buff c = []
  /\ 0 < limit (tc_cursor c)
  /\ Z.of_nat (List.length items) <= offset (tc_cursor c).

(** The ids of the stories in a listing, [-1] standing for a nil
    pointer. *)
Definition story_ids (l : list (option Story)) : list Z :=
  map (fun s => match s with
                | Some x => Story_Id x
                | None => -1
                end) l.

(** What a listing or an iteration is seen to have done: the page
    requests it issued, the ids it returned and its error. *)
Definition observed
           (r : option (World (list (option Story))
                        * (list (option Story) * option error)))
  : option (list (Z * Z) * list Z * option error) :=
  match r with
  | Some (w, (l, err)) => Some (page_requests w, story_ids l, err)
  | None => None
  end.

(** ** Sample inputs *)

Definition stories3 : list (option Story) := map story_of_id (ids 1 3).
Definition epics3 : list (option Epic) := map epic_of_id (ids 1 3).
Definition stories35 : list (option Story) := map story_of_id (ids 1 35).
Definition stories25 : list (option Story) := map story_of_id (ids 1 25).
Definition epics25 : list (option Epic) := map epic_of_id (ids 1 25).

(** A collection of 25 stories when first asked, of 20 afterwards. *)
Definition shrinking_stories (k : nat) : list (option Story) :=
  match k with
  | O => stories25
  | S _ => map story_of_id (ids 1 20)
  end.

(** A story cursor with two buffered stories, and one with none whose
    offset is past a collection of three. *)
Definition buffered_story_cursor : StoryCursor :=
  mkTypedCursor (mkCursor (newStoriesRequestFunc 1 no_filter) PageLimit 10 3)
                [story_of_id 1; story_of_id 2].

Definition drained_story_cursor : StoryCursor :=
  mkTypedCursor (mkCursor (newStoriesRequestFunc 1 no_filter) PageLimit 10 3) [].

Definition buffered_epic_cursor : EpicCursor :=
  mkTypedCursor (mkCursor (newEpicsRequestFunc 1 no_filter) PageLimit 10 3)
                [epic_of_id 1; epic_of_id 2].

Definition drained_epic_cursor : EpicCursor :=
  mkTypedCursor (mkCursor (newEpicsRequestFunc 1 no_filter) PageLimit 10 3) [].

(** * The other endpoints of the story and epic services *)

(** ** Go's fmt and strings, as [arrayToString] uses them *)

(** [fmt.Sprint(a)] for a slice of [int]: the elements in decimal,
    separated by single spaces, between brackets. *)
Definition Sprint_ints (a : list Z) : string :=
  ("[" ++ String.concat " " (map Sprint_int a) ++ "]")%string.

(** The scan of [strings.Replace] for a non-empty [old]: leftmost
    non-overlapping occurrences are replaced; [skip] counts the bytes of
    the occurrence just replaced that are still to be passed over. *)
Fixpoint Replace_from (skip : nat) (old new s : string) : string :=
  match s with
  | EmptyString => EmptyString
  | String c rest =>
      match skip with
      | S k => Replace_from k old new rest
      | O =>
          if String.prefix old s
          then (new ++ Replace_from (String.length old - 1) old new rest)%string
          else String c (Replace_from 0 old new rest)
      end
  end.

(** [strings.Replace] for an empty [old]: [new] goes before every
    character and at the end.  Characters are bytes here, which is exact
    for ASCII text. *)
Fixpoint Replace_between (new s : string) : string :=
  match s with
  | EmptyString => new
  | String c rest => (new ++ String c (Replace_between new rest))%string
  end.

(** [strings.Replace(s, old, new, -1)]. *)
Definition strings_Replace (s old new : string) : string :=
  if (old =? new)%string then s
  else
    match old with
    | EmptyString => Replace_between new s
    | String _ _ => Replace_from 0 old new s
    end.

Fixpoint in_cutset (cutset : string) (c : ascii) : bool :=
  match cutset with
  | EmptyString => false
  | String x rest => (c =? x)%char || in_cutset rest c
  end.

Fixpoint strings_TrimLeft (s cutset : string) : string :=
  match s with
  | EmptyString => EmptyString
  | String c rest =>
      if in_cutset cutset c then strings_TrimLeft rest cutset else s
  end.

Fixpoint strings_TrimRight (s cutset : string) : string :=
  match s with
  | EmptyString => EmptyString
  | String c rest =>
      match strings_TrimRight rest cutset with
      | EmptyString =>
          if in_cutset cutset c then EmptyString else String c EmptyString
      | String _ _ as kept => String c kept
      end
  end.

(** [strings.Trim(s, cutset)]: the leading and the trailing characters
    that belong to [cutset] are removed.  Byte-wise, which is exact for an
    ASCII cutset. *)
Definition strings_Trim (s cutset : string) : string :=
  strings_TrimLeft (strings_TrimRight s cutset) cutset.

Definition arrayToString (a : list Z) (delim : string) : string :=
  strings_Trim (strings_Replace (Sprint_ints a) " " delim) "[]".

(** ** Decoding a query component (Go's net/url) *)

Definition unhex (c : ascii) : option N :=
  if between "0" "9" c then Some (N_of_ascii c - 48)%N
  else if between "a" "f" c then Some (N_of_ascii c - 97 + 10)%N
  else if between "A" "F" c then Some (N_of_ascii c - 65 + 10)%N
  else None.

(** [url.QueryUnescape]: [+] is a space, [%XX] is the byte with that
    hexadecimal code; a [%] that is not followed by two hexadecimal digits
    is an error ([None]). *)
Fixpoint QueryUnescape (s : string) : option string :=
  match s with
  | EmptyString => Some EmptyString
  | String c rest =>
      if (c =? "%")%char then
        match rest with
        | String h (String l rest') =>
            match unhex h, unhex l, QueryUnescape rest' with
            | Some hi, Some lo, Some tail =>
                Some (String (ascii_of_N (hi * 16 + lo)) tail)
            | _, _, _ => None
            end
        | _ => None
        end
      else
        match QueryUnescape rest with
        | Some tail =>
            Some (String (if (c =? "+")%char then " "%char else c) tail)
        | None => None
        end
  end.

(** The characters [url.QueryEscape] can produce: the unreserved ones,
    [+] for a space, and [%] with its hexadecimal digits. *)
Definition query_safe (c : ascii) : bool :=
  negb (shouldEscape c) || (c =? "+")%char || (c =? "%")%char.

Fixpoint string_forallb (p : ascii -> bool) (s : string) : bool :=
  match s with
  | EmptyString => true
  | String c rest => p c && string_forallb p rest
  end.

(** ** More resource records *)

Record StoryRequest := mkStoryRequest {
  StoryRequest_Name : string;
  StoryRequest_Description : string;
  StoryRequest_Type : string;
  StoryRequest_State : string;
  StoryRequest_Estimate : option float64;
  StoryRequest_OwnerIds : option (list Z);
  StoryRequest_LabelIds : option (list Z);
  StoryRequest_Labels : option (list (option Label));
  StoryRequest_TaskIds : option (list Z);
  StoryRequest_Tasks : option (list Z);
  StoryRequest_FollowerIds : option (list Z);
  StoryRequest_CommentIds : option (list Z)
}.

Record Task := mkTask {
  Task_Id : Z;
  Task_StoryId : Z;
  Task_Description : string;
  Task_Position : Z;
  Task_Complete : bool;
  Task_CreatedAt : option Time;
  Task_UpdatedAt : option Time
}.

Record Blocker := mkBlocker {
  Blocker_Id : Z;
  Blocker_StoryId : Z;
  Blocker_PersonId : Z;
  Blocker_Description : string;
  Blocker_Resolved : bool;
  Blocker_CreatedAt : option Time;
  Blocker_UpdatedAt : option Time
}.

Record BlockerRequest := mkBlockerRequest {
  BlockerRequest_Description : string;
  BlockerRequest_Resolved : option bool
}.

(** ** The transport collaborator, with every body the services send *)

(** The outbound document of a request: the value handed to
    [Client.NewRequest] as [body].  A pointer argument may be nil; the
    [BlockerRequest] that [AddBlocker] passes by value is [Some]. *)
Inductive Payload : Type :=
| StoryRequestPayload (story : option StoryRequest)
| EpicRequestPayload (epic : option EpicRequest)
| TaskPayload (task : option Task)
| CommentPayload (comment : option Comment)
| BlockerRequestPayload (blocker : option BlockerRequest).

Record WireRequest := mkWireRequest {
  wire_method : string;
  wire_url : string;
  wire_body : option Payload
}.

Record WireExchange (D : Type) := mkWireExchange {
  wx_request : WireRequest;
  wx_outcome : Outcome D
}.

Arguments mkWireExchange {D} _ _.
Arguments wx_request {D} _.
Arguments wx_outcome {D} _.

Definition WireWorld (D : Type) := list (WireExchange D).

Definition WireTransport (D : Type) := WireWorld D -> WireRequest -> Outcome D.

(** Modelled from the spec: the request [Client.NewRequest] builds when
    it succeeds, as [NewRequest] above, for every kind of body.  The
    failures of the builder are those of [Client] below. *)
Definition NewWireRequest (method urlStr : string) (body : option Payload)
  : WireRequest * option error :=
  (mkWireRequest method urlStr body, None).

(** Modelled from the spec: [Client.Do], as [Do] above. *)
Definition WireDo {D : Type} (tr : WireTransport D) (req : WireRequest)
           (w : WireWorld D) : WireWorld D * Outcome D :=
  let out := tr w req in
  (w ++ [mkWireExchange req out], out).

(** What a call does: it returns, or it panics on a nil pointer. *)
Inductive Go (R : Type) : Type :=
| Returns (r : R)
| Panics.

Arguments Returns {R} r.
Arguments Panics {R}.

(** ** The client of the services

    Modelled from the spec: the client a service holds, with the two
    operations the services use.  [Client.NewRequest] is
    "BuildRequest(method, path, body) -> RequestDescriptor | Error": it
    may fail, and the spec does not say when; [build_error] is the error,
    if any, with which the builder answers a method, a path and a body,
    and it is a parameter of every property.  When the builder succeeds
    the request is the descriptor [NewWireRequest] makes.  [Client.Do] is
    the transport [round_trip]. *)

Record Client (D : Type) := mkClient {
  build_error : string -> string -> option Payload -> option error;
  round_trip : WireTransport D
}.

Arguments mkClient {D} _ _.
Arguments build_error {D} _ _ _ _.
Arguments round_trip {D} _ _ _.

(** Modelled from the spec: [Client.NewRequest] of such a client. *)
Definition Client_NewRequest {D : Type} (client : Client D)
           (method urlStr : string) (body : option Payload)
  : result WireRequest :=
  match build_error client method urlStr body with
  | Some e => Err e
  | None => Ok (fst (NewWireRequest method urlStr body))
  end.

(** The client that builds every request and sends it over [tr], and the
    client that builds none and answers [e]. *)
Definition building {D : Type} (tr : WireTransport D) : Client D :=
  mkClient (fun _ _ _ => None) tr.

Definition unable {D : Type} (e : error) (tr : WireTransport D) : Client D :=
  mkClient (fun _ _ _ => Some e) tr.

(** ** Stories: single-resource methods *)

Definition StoryService_Create (client : Client Story)
           (projectId : Z) (story : option StoryRequest) (w : WireWorld Story)
  : Go (WireWorld Story * (option Story * option Metadata * option error)) :=
  if projectId =? 0 then
    Returns (w, (None, None, Some (ErrFieldNotSet "project_id")))
  else
    match story with
    | None => Panics
    | Some s =>
        if (StoryRequest_Name s =? EmptyString)%string then
          Returns (w, (None, None, Some (ErrFieldNotSet "name")))
        else
          let u := ("projects/" ++ Sprint_int projectId ++ "/stories")%string in
          match Client_NewRequest client "POST" u
                                  (Some (StoryRequestPayload story)) with
          | Err e => Returns (w, (None, None, Some e))
          | Ok req =>
              match WireDo (round_trip client) req w with
              | (w', Failure resp e) => Returns (w', (None, resp, Some e))
              | (w', Success resp newStory) =>
                  Returns (w', (Some newStory, Some resp, None))
              end
          end
    end.

(** [Get] on a client that builds every request.  Where only the path of
    the request is studied the client is its transport alone; with the
    builder's failures [Get] is [StoryService_Get_on] below. *)
Definition StoryService_Get (client : WireTransport Story)
           (projectId storyId : Z) (w : WireWorld Story)
  : WireWorld Story * (option Story * option Metadata * option error) :=
  let u := ("projects/" ++ Sprint_int projectId ++ "/stories/"
              ++ Sprint_int storyId)%string in
  let '(req, err) := NewWireRequest "GET" u None in
  match err with
  | Some e => (w, (None, None, Some e))
  | None =>
      match WireDo client req w with
      | (w', Failure resp e) => (w', (None, resp, Some e))
      | (w', Success resp story) => (w', (Some story, Some resp, None))
      end
  end.

(** [Get] returns a Story by ID. *)
Definition StoryService_Get_on (client : Client Story)
           (projectId storyId : Z) (w : WireWorld Story)
  : WireWorld Story * (option Story * option Metadata * option error) :=
  let u := ("projects/" ++ Sprint_int projectId ++ "/stories/"
              ++ Sprint_int storyId)%string in
  match Client_NewRequest client "GET" u None with
  | Err e => (w, (None, None, Some e))
  | Ok req =>
      match WireDo (round_trip client) req w with
      | (w', Failure resp e) => (w', (None, resp, Some e))
      | (w', Success resp story) => (w', (Some story, Some resp, None))
      end
  end.

Definition StoryService_GetBulk (client : Client (list (option Story)))
           (projectId : Z) (storyIds : list Z)
           (w : WireWorld (list (option Story)))
  : WireWorld (list (option Story))
    * (list (option Story) * option Metadata * option error) :=
  let u := ("projects/" ++ Sprint_int projectId ++ "/stories/bulk")%string in
  let stories := arrayToString storyIds "," in
  let u := if (stories =? EmptyString)%string then u
           else (u ++ "?ids=" ++ QueryEscape stories)%string in
  match Client_NewRequest client "GET" u None with
  | Err e => (w, ([], None, Some e))
  | Ok req =>
      match WireDo (round_trip client) req w with
      | (w', Failure resp e) => (w', ([], resp, Some e))
      | (w', Success resp bulkStories) => (w', (bulkStories, Some resp, None))
      end
  end.

Definition StoryService_Update (client : Client Story)
           (projectId storyId : Z) (story : option StoryRequest)
           (w : WireWorld Story)
  : WireWorld Story * (option Story * option Metadata * option error) :=
  let u := ("projects/" ++ Sprint_int projectId ++ "/stories/"
              ++ Sprint_int storyId)%string in
  match Client_NewRequest client "PUT" u
                          (Some (StoryRequestPayload story)) with
  | Err e => (w, (None, None, Some e))
  | Ok req =>
      match WireDo (round_trip client) req w with
      | (w', Failure resp e) => (w', (None, resp, Some e))
      | (w', Success resp bodyStory) => (w', (Some bodyStory, Some resp, None))
      end
  end.

(** ** Stories: tasks, owners, comments and blockers *)

Definition StoryService_ListTasks (client : Client (list (option Task)))
           (projectId storyId : Z) (w : WireWorld (list (option Task)))
  : WireWorld (list (option Task))
    * (list (option Task) * option Metadata * option error) :=
  let u := ("projects/" ++ Sprint_int projectId ++ "/stories/"
              ++ Sprint_int storyId ++ "/tasks")%string in
  match Client_NewRequest client "GET" u None with
  | Err e => (w, ([], None, Some e))
  | Ok req =>
      match WireDo (round_trip client) req w with
      | (w', Failure resp e) => (w', ([], resp, Some e))
      | (w', Success resp tasks) => (w', (tasks, Some resp, None))
      end
  end.

(** [AddTask] hands no decoding target to [Client.Do] and returns what it
    returns: the response and the error. *)
Definition StoryService_AddTask (client : Client unit)
           (projectId storyId : Z) (task : option Task) (w : WireWorld unit)
  : Go (WireWorld unit * (option Metadata * option error)) :=
  match task with
  | None => Panics
  | Some t =>
      if (Task_Description t =? EmptyString)%string then
        Returns (w, (None, Some (ErrFieldNotSet "description")))
      else
        let u := ("projects/" ++ Sprint_int projectId ++ "/stories/"
                    ++ Sprint_int storyId ++ "/tasks")%string in
        match Client_NewRequest client "POST" u
                                (Some (TaskPayload task)) with
        | Err e => Returns (w, (None, Some e))
        | Ok req =>
            match WireDo (round_trip client) req w with
            | (w', Failure resp e) => Returns (w', (resp, Some e))
            | (w', Success resp _) => Returns (w', (Some resp, None))
            end
        end
  end.

Definition StoryService_ListOwners
           (client : Client (list (option Person)))
           (projectId storyId : Z) (w : WireWorld (list (option Person)))
  : WireWorld (list (option Person))
    * (list (option Person) * option Metadata * option error) :=
  let u := ("projects/" ++ Sprint_int projectId ++ "/stories/"
              ++ Sprint_int storyId ++ "/owners")%string in
  match Client_NewRequest client "GET" u None with
  | Err e => (w, ([], None, Some e))
  | Ok req =>
      match WireDo (round_trip client) req w with
      | (w', Failure resp e) => (w', ([], resp, Some e))
      | (w', Success resp owners) => (w', (owners, Some resp, None))
      end
  end.

Definition StoryService_AddComment (client : Client Comment)
           (projectId storyId : Z) (comment : option Comment)
           (w : WireWorld Comment)
  : WireWorld Comment * (option Comment * option Metadata * option error) :=
  let u := ("projects/" ++ Sprint_int projectId ++ "/stories/"
              ++ Sprint_int storyId ++ "/comments")%string in
  match Client_NewRequest client "POST" u (Some (CommentPayload comment)) with
  | Err e => (w, (None, None, Some e))
  | Ok req =>
      match WireDo (round_trip client) req w with
      | (w', Failure resp e) => (w', (None, resp, Some e))
      | (w', Success resp newComment) =>
          (w', (Some newComment, Some resp, None))
      end
  end.

(** [ListComments] returns the list of Comments in a Story. *)
Definition StoryService_ListComments
           (client : Client (list (option Comment)))
           (projectId storyId : Z) (w : WireWorld (list (option Comment)))
  : WireWorld (list (option Comment))
    * (list (option Comment) * option Metadata * option error) :=
  let u := ("projects/" ++ Sprint_int projectId ++ "/stories/"
              ++ Sprint_int storyId ++ "/comments")%string in
  match Client_NewRequest client "GET" u None with
  | Err e => (w, ([], None, Some e))
  | Ok req =>
      match WireDo (round_trip client) req w with
      | (w', Failure resp e) => (w', ([], resp, Some e))
      | (w', Success resp comments) => (w', (comments, Some resp, None))
      end
  end.

(** [ListBlockers] returns the list of Blockers in a Story. *)
Definition StoryService_ListBlockers
           (client : Client (list (option Blocker)))
           (projectId storyId : Z) (w : WireWorld (list (option Blocker)))
  : WireWorld (list (option Blocker))
    * (list (option Blocker) * option Metadata * option error) :=
  let u := ("projects/" ++ Sprint_int projectId ++ "/stories/"
              ++ Sprint_int storyId ++ "/blockers")%string in
  match Client_NewRequest client "GET" u None with
  | Err e => (w, ([], None, Some e))
  | Ok req =>
      match WireDo (round_trip client) req w with
      | (w', Failure resp e) => (w', ([], resp, Some e))
      | (w', Success resp blockers) => (w', (blockers, Some resp, None))
      end
  end.

Definition StoryService_AddBlocker (client : Client Blocker)
           (projectId storyId : Z) (description : string)
           (w : WireWorld Blocker)
  : WireWorld Blocker * (option Blocker * option Metadata * option error) :=
  let u := ("projects/" ++ Sprint_int projectId ++ "/stories/"
              ++ Sprint_int storyId ++ "/blockers")%string in
  match Client_NewRequest client "POST" u
          (Some (BlockerRequestPayload
                   (Some (mkBlockerRequest description None)))) with
  | Err e => (w, (None, None, Some e))
  | Ok req =>
      match WireDo (round_trip client) req w with
      | (w', Failure resp e) => (w', (None, resp, Some e))
      | (w', Success resp blocker) => (w', (Some blocker, Some resp, None))
      end
  end.

(** [UpdateBlocker] on a client that builds every request; with the
    builder's failures it is [StoryService_UpdateBlocker_on] below. *)
Definition StoryService_UpdateBlocker (client : WireTransport Blocker)
           (projectId stroyId blockerId : Z) (blocker : option BlockerRequest)
           (w : WireWorld Blocker)
  : WireWorld Blocker * (option Blocker * option Metadata * option error) :=
  let u := ("projects/" ++ Sprint_int projectId ++ "/stories/"
              ++ Sprint_int stroyId ++ "/blockers/"
              ++ Sprint_int blockerId)%string in
  let '(req, err) :=
    NewWireRequest "PUT" u (Some (BlockerRequestPayload blocker)) in
  match err with
  | Some e => (w, (None, None, Some e))
  | None =>
      match WireDo client req w with
      | (w', Failure resp e) => (w', (None, resp, Some e))
      | (w', Success resp blockerResp) =>
          (w', (Some blockerResp, Some resp, None))
      end
  end.

(** [UpdateBlocker] updates a blocker of a story. *)
Definition StoryService_UpdateBlocker_on (client : Client Blocker)
           (projectId stroyId blockerId : Z) (blocker : option BlockerRequest)
           (w : WireWorld Blocker)
  : WireWorld Blocker * (option Blocker * option Metadata * option error) :=
  let u := ("projects/" ++ Sprint_int projectId ++ "/stories/"
              ++ Sprint_int stroyId ++ "/blockers/"
              ++ Sprint_int blockerId)%string in
  match Client_NewRequest client "PUT" u
                          (Some (BlockerRequestPayload blocker)) with
  | Err e => (w, (None, None, Some e))
  | Ok req =>
      match WireDo (round_trip client) req w with
      | (w', Failure resp e) => (w', (None, resp, Some e))
      | (w', Success resp blockerResp) =>
          (w', (Some blockerResp, Some resp, None))
      end
  end.

(** ** Epics: creation *)

(** [Create] is used to create a new Epic with an [EpicRequest]. *)
Definition EpicService_Create (client : Client Epic)
           (projectID : Z) (epic : option EpicRequest) (w : WireWorld Epic)
  : Go (WireWorld Epic * (option Epic * option Metadata * option error)) :=
  if projectID =? 0 then
    Returns (w, (None, None, Some (ErrFieldNotSet "project_id")))
  else
    match epic with
    | None => Panics
    | Some ep =>
        if (EpicRequest_Name ep =? EmptyString)%string then
          Returns (w, (None, None, Some (ErrFieldNotSet "name")))
        else
          let u := ("projects/" ++ Sprint_int projectID ++ "/epics")%string in
          match Client_NewRequest client "POST" u
                                  (Some (EpicRequestPayload epic)) with
          | Err e => Returns (w, (None, None, Some e))
          | Ok req =>
              match WireDo (round_trip client) req w with
              | (w', Failure resp e) => Returns (w', (None, resp, Some e))
              | (w', Success resp newEpic) =>
                  Returns (w', (Some newEpic, Some resp, None))
              end
          end
    end.

(** ** Observations on requests *)

(** The characters of an [int] in decimal: the digits and the minus
    sign. *)
Definition int_char (c : ascii) : bool :=
  between "0" "9" c || (c =? "-")%char.

(** The URL of the most recent exchange of a log. *)
Definition last_url {D : Type} (w : WireWorld D) : option string :=
  match rev w with
  | [] => None
  | ex :: _ => Some (wire_url (wx_request ex))
  end.

(** The URL of the most recent exchange of a log of the cursor's
    transport. *)
Definition last_request_url {D : Type} (w : World D) : option string :=
  match rev w with
  | [] => None
  | ex :: _ => Some (req_url (ex_request ex))
  end.

(** The query string the request builders append for a filter. *)
Definition filter_query (filter : string) : string :=
  if (filter =? EmptyString)%string then EmptyString
  else ("?filter=" ++ QueryEscape filter)%string.

(** Not one of the characters that delimit the parts of a URL or of its
    query, nor a space. *)
Definition unreserved_in_query (c : ascii) : bool :=
  negb (in_cutset "&=?#/ " c).

(** What a method that builds one request from [method], [url] and
    [body] and executes it makes of the log [w].  If the client cannot
    build the request, the log is untouched and the builder's error is
    returned with no response.  Otherwise the log gains exactly one
    exchange, that of this request, and the response and the error
    returned are those of this exchange, the error nil if it succeeded. *)
Definition builds_and_sends {D : Type} (client : Client D)
           (method url : string) (body : option Payload)
           (w w' : WireWorld D) (resp : option Metadata)
           (err : option error) : Prop :=
  match build_error client method url body with
  | Some e => w' = w /\ resp = None /\ err = Some e
  | None =>
      let req := mkWireRequest method url body in
      w' = w ++ [mkWireExchange req (round_trip client w req)]
      /\ match round_trip client w req with
         | Success meta _ => resp = Some meta /\ err = None
         | Failure meta e => resp = meta /\ err = Some e
         end
  end.

(** A method returned a value exactly when it returned no error. *)
Definition value_xor_error {V : Type} (v : option V) (err : option error)
  : Prop :=
  (v = None /\ err <> None) \/ (v <> None /\ err = None).

(** A service that refuses every request. *)
Definition refusing {D : Type} : WireTransport D :=
  fun _ _ => Failure None (TransportError 503).

(** ** Callers of the buffered cursor *)

Section CursorState.

Context {T : Type}.

Variable next : PageFetch (option T).

(** The cursor and the world after [k] successive calls to [Next]. *)
Fixpoint Next_state (k : nat) (c : TypedCursor T)
         (w : World (list (option T)))
  : TypedCursor T * World (list (option T)) :=
  match k with
  | O => (c, w)
  | S k' =>
      let '((c', w'), _) := TypedCursor_Next next c w in
      Next_state k' c' w'
  end.

End CursorState.

(** ** Services that do not answer from one collection in full *)

(** A collection served in full to every page request, with a total that
    the service reports on its own account: exchange [k] reports
    [reported k]. *)
Definition serve_reporting {A : Type} (items : list A) (reported : nat -> Z)
  : Transport (list A) :=
  fun w req =>
    Success (mkMetadata (reported (List.length w)))
      match req_paging req with
      | Some (off, lim) => firstn (Z.to_nat lim) (skipn (Z.to_nat off) items)
      | None => items
      end.

(** Collections of 10 and of 20 stories. *)
Definition stories10 : list (option Story) := map story_of_id (ids 1 10).
Definition stories20 : list (option Story) := map story_of_id (ids 1 20).

(** A total of 25 when first asked, of 22 afterwards. *)
Definition total_25_then_22 (k : nat) : Z :=
  match k with
  | O => 25
  | S _ => 22
  end.

(** A service that holds 20 stories and reports more. *)
Definition over_reporting : Transport (list (option Story)) :=
  serve_reporting stories20 total_25_then_22.

(** A collection of 10 stories that has become one of 25 by the fourth
    request, and the service that answers from it. *)
Definition growing_stories (k : nat) : list (option Story) :=
  if (k <? 3)%nat then stories10 else stories25.

Definition growing : Transport (list (option Story)) :=
  serve_volatile growing_stories.

(** 25 stories served in pages of 5 at most. *)
Definition short_pages : Transport (list (option Story)) :=
  serve stories25 (fun _ => 5%nat).

(** * Properties *)

(** ** The embedding at work *)

Example Sprint_int_decimal :
  Sprint_int 0 = "0" /\ Sprint_int 1234567 = "1234567"
  /\ Sprint_int (-42) = "-42".
Proof. repeat split. Qed.

Example newStoriesRequestFunc_escapes_filter :
  newStoriesRequestFunc 7 "label:a b&c" tt
  = mkRequest "GET" "projects/7/stories?filter=label%3Aa+b%26c" None None
  /\ newEpicsRequestFunc 7 no_filter tt = mkRequest "GET" "projects/7/epics" None None.
Proof. split; reflexivity. Qed.

(** [List] over 25 stories delivered in pages of at most 10: after the
    sizing request it asks three times for 25 items, from offsets 0, 10
    and 20, and returns the 25 stories in order. *)
Example List_25_in_pages_of_10 :
  observed (StoryService_List (serve stories25 (fun _ => 10%nat)) 26 1 no_filter [])
  = Some ([(0, 25); (10, 25); (20, 25)], ids 1 25, None).
Proof. vm_compute. reflexivity. Qed.

(** [Iterate] and [Next] over the same 25 stories: pages of 10 are asked
    for from offsets 0, 10, 20 and, to find the end, 30. *)
Example Iterate_25_by_PageLimit :
  observed (StoryService_Iterate_all (serve_exact stories25) 26 1 no_filter [])
  = Some ([(0, 10); (10, 10); (20, 10); (30, 10)], ids 1 25, None).
Proof. vm_compute. reflexivity. Qed.

(** A total of 25 at construction and of 20 at the first page fetch:
    [List] returns the 20 stories after that one fetch. *)
Example List_on_a_shrinking_total :
  observed (StoryService_List (serve_volatile shrinking_stories) 26 1 no_filter [])
  = Some ([(0, 25)], ids 1 20, None).
Proof. vm_compute. reflexivity. Qed.

(** The second page fetch fails: [List] returns the error and no story. *)
Example List_second_page_fails :
  observed (StoryService_List
              (failing_at 2 (TransportError 500)
                          (serve stories25 (fun _ => 10%nat)))
              26 1 no_filter [])
  = Some ([(0, 25); (10, 25)], [], Some (TransportError 500)).
Proof. vm_compute. reflexivity. Qed.

(** An empty collection: [List] returns nothing without any page fetch,
    and the first [Next] after [Iterate] signals the end after one. *)
Example empty_collection :
  observed (StoryService_List (serve_exact []) 1 1 no_filter [])
  = Some ([], [], None)
  /\ observed (StoryService_Iterate_all (serve_exact []) 1 1 no_filter [])
     = Some ([(0, 10)], [], None).
Proof. split; reflexivity. Qed.

(** ** The buffer discipline of [Next] *)

Section NextFacts.

Context {T : Type}.

Variable next : PageFetch (option T).

Lemma Next_pop_cons (cur : cursor) (s : option T) (rest : list (option T))
      (w : World (list (option T))) (err : option error) :
  Next_pop (mkTypedCursor cur (s :: rest)) w err
  = ((mkTypedCursor cur rest, w), (s, err)).
Proof. reflexivity. Qed.

Lemma Next_nonempty (c : TypedCursor T) (w : World (list (option T)))
      (s : option T) (rest : list (option T)) :
  buff c = s :: rest ->
  TypedCursor_Next next c w
  = ((mkTypedCursor (tc_cursor c) rest, w), (s, None)).
Proof.
  destruct c as [cur b]; simpl; intros ->.
  unfold TypedCursor_Next; simpl. apply Next_pop_cons.
Qed.

Lemma Next_empty (c : TypedCursor T) (w : World (list (option T))) :
  buff c = [] ->
  TypedCursor_Next next c w
  = let '((cur', w', buff'), (_, err)) := next (tc_cursor c) w [] in
    match err with
    | Some e => ((mkTypedCursor cur' buff', w'), (None, Some e))
    | None =>
        match buff' with
        | [] => ((mkTypedCursor cur' [], w'), (None, Some io_EOF))
        | s :: rest => ((mkTypedCursor cur' rest, w'), (s, None))
        end
    end.
Proof.
  destruct c as [cur b]; simpl; intros ->.
  unfold TypedCursor_Next; simpl.
  destruct (next cur w []) as [[[cur' w'] buff'] [n [e|]]]; try reflexivity.
  destruct buff'; reflexivity.
Qed.

End NextFacts.

(** C5.  When the buffer of a story or epic cursor is non-empty, [Next]
    returns its front item with a nil error and leaves the rest of the
    buffer; the cursor and the exchange log are untouched, whatever the
    page-fetch primitive is: no page is fetched. *)
Theorem Next_nonempty_buffer_pops_front :
  (forall (next : PageFetch (option Story)) (c : StoryCursor)
          (w : World (list (option Story))) s rest,
      buff c = s :: rest ->
      StoryCursor_Next next c w
      = ((mkTypedCursor (tc_cursor c) rest, w), (s, None)))
  /\
  (forall (next : PageFetch (option Epic)) (c : EpicCursor)
          (w : World (list (option Epic))) e rest,
      buff c = e :: rest ->
      EpicCursor_Next next c w
      = ((mkTypedCursor (tc_cursor c) rest, w), (e, None))).
Proof.
  split; intros; unfold StoryCursor_Next, EpicCursor_Next;
    now apply Next_nonempty.
Qed.

Lemma Next_nonempty_buffer_pops_front_witness :
  StoryCursor_Next (cursor_next (serve_exact stories3)) buffered_story_cursor []
  = ((mkTypedCursor (tc_cursor buffered_story_cursor) [story_of_id 2], []),
     (story_of_id 1, None))
  /\
  EpicCursor_Next (cursor_next (serve_exact epics3)) buffered_epic_cursor []
  = ((mkTypedCursor (tc_cursor buffered_epic_cursor) [epic_of_id 2], []),
     (epic_of_id 1, None)).
Proof.
  destruct Next_nonempty_buffer_pops_front as [HS HE].
  split; [apply HS|apply HE]; reflexivity.
Defined.

(** C6.  When the buffer is empty and the refill succeeds without
    bringing any item, [Next] returns a nil item together with [io.EOF];
    and [io.EOF] is told apart from every failure of the transport, of the
    decoder and of local validation by comparing error values. *)
Theorem Next_empty_refill_signals_EOF :
  (forall (next : PageFetch (option Story)) (c : StoryCursor)
          (w w' : World (list (option Story))) cur' n,
      buff c = [] ->
      next (tc_cursor c) w [] = ((cur', w', []), (n, None)) ->
      StoryCursor_Next next c w
      = ((mkTypedCursor cur' [], w'), (None, Some io_EOF)))
  /\
  (forall (next : PageFetch (option Epic)) (c : EpicCursor)
          (w w' : World (list (option Epic))) cur' n,
      buff c = [] ->
      next (tc_cursor c) w [] = ((cur', w', []), (n, None)) ->
      EpicCursor_Next next c w
      = ((mkTypedCursor cur' [], w'), (None, Some io_EOF)))
  /\
  (forall status msg field,
      error_eqb io_EOF (TransportError status) = false /\
      error_eqb io_EOF (DecodeError msg) = false /\
      error_eqb io_EOF (ErrFieldNotSet field) = false /\
      error_eqb io_EOF io_EOF = true)
  /\
  (forall e, is_failure e <-> error_eqb io_EOF e = false).
Proof.
  repeat split;
    try (intros next c w w' cur' n Hb Hn;
         unfold StoryCursor_Next, EpicCursor_Next;
         rewrite Next_empty by assumption; rewrite Hn; reflexivity).
  - intros Hf. destruct e; try reflexivity. now elim Hf.
  - intros He Heq. subst e. discriminate He.
Qed.

Lemma Next_empty_refill_signals_EOF_witness :
  (exists cur' w',
      StoryCursor_Next (cursor_next (serve_exact stories3)) drained_story_cursor []
      = ((mkTypedCursor cur' [], w'), (None, Some io_EOF))
      /\ offset cur' = 20 /\ List.length w' = 1%nat)
  /\
  (exists cur' w',
      EpicCursor_Next (cursor_next (serve_exact epics3)) drained_epic_cursor []
      = ((mkTypedCursor cur' [], w'), (None, Some io_EOF))
      /\ offset cur' = 20 /\ List.length w' = 1%nat).
Proof.
  destruct Next_empty_refill_signals_EOF as (HS & HE & _).
  split; do 2 eexists.
  - split; [apply (HS _ drained_story_cursor [] _ _ 0); reflexivity|].
    split; reflexivity.
  - split; [apply (HE _ drained_epic_cursor [] _ _ 0); reflexivity|].
    split; reflexivity.
Defined.

Section NextOutcomes.

Context {T : Type}.

Variable next : PageFetch (option T).

Lemma Next_result_cases (c : TypedCursor T) (w : World (list (option T))) :
  let '((c', w'), (s, err)) := TypedCursor_Next next c w in
  match err with
  | None =>
      (buff c = s :: buff c' /\ w' = w /\ tc_cursor c' = tc_cursor c)
      \/ (buff c = [] /\
          exists n,
            next (tc_cursor c) w []
            = ((tc_cursor c', w', s :: buff c'), (n, None)))
  | Some _ => s = None
  end.
Proof.
  destruct (buff c) as [|s0 rest] eqn:Hb.
  - rewrite Next_empty by assumption.
    destruct (next (tc_cursor c) w []) as [[[cur' w'] buff'] [n [e|]]];
      [reflexivity|].
    destruct buff' as [|s rest]; [reflexivity|].
    right. split; [reflexivity|]. exists n. reflexivity.
  - rewrite (Next_nonempty next c w s0 rest Hb). left. auto.
Qed.

Lemma Next_pair_of_outcome (c : TypedCursor T) (w : World (list (option T))) :
  pair_of (outcome_of (snd (TypedCursor_Next next c w)))
  = snd (TypedCursor_Next next c w).
Proof.
  pose proof (Next_result_cases c w) as H.
  destruct (TypedCursor_Next next c w) as [[c' w'] [s [e|]]]; simpl in *.
  - subst s. destruct e; reflexivity.
  - reflexivity.
Qed.

End NextOutcomes.

(** C10.  On every call of [Next], of a story or an epic cursor: a
    non-nil error (the [io.EOF] sentinel included) comes with a nil item;
    a nil error comes with an item that was popped from the buffer, either
    the buffer the cursor had or the one the refill just filled without
    error; so the pair decodes to exactly one of the outcomes item,
    end-of-sequence and failure, and is recovered from it. *)
Theorem Next_item_and_error_exclusive :
  (forall (next : PageFetch (option Story)) (c : StoryCursor)
          (w : World (list (option Story))),
      let '((c', w'), (s, err)) := StoryCursor_Next next c w in
      (err <> None -> s = None) /\
      (s <> None -> err = None) /\
      (err = None ->
       (buff c = s :: buff c' /\ w' = w /\ tc_cursor c' = tc_cursor c)
       \/ (buff c = [] /\
           exists n,
             next (tc_cursor c) w []
             = ((tc_cursor c', w', s :: buff c'), (n, None)))) /\
      pair_of (outcome_of (s, err)) = (s, err))
  /\
  (forall (next : PageFetch (option Epic)) (c : EpicCursor)
          (w : World (list (option Epic))),
      let '((c', w'), (e, err)) := EpicCursor_Next next c w in
      (err <> None -> e = None) /\
      (e <> None -> err = None) /\
      (err = None ->
       (buff c = e :: buff c' /\ w' = w /\ tc_cursor c' = tc_cursor c)
       \/ (buff c = [] /\
           exists n,
             next (tc_cursor c) w []
             = ((tc_cursor c', w', e :: buff c'), (n, None)))) /\
      pair_of (outcome_of (e, err)) = (e, err)).
Proof.
  split; intros next c w; unfold StoryCursor_Next, EpicCursor_Next;
    pose proof (Next_result_cases next c w) as H;
    pose proof (Next_pair_of_outcome next c w) as P;
    destruct (TypedCursor_Next next c w) as [[c' w'] [s [e|]]];
    simpl in H, P; (repeat split; try congruence; intros; try assumption).
Qed.

(** ** The path of [EpicService.Update] *)

Lemma append_cancel_l (s a b : string) :
  (s ++ a)%string = (s ++ b)%string -> a = b.
Proof.
  induction s as [|ch s IH]; simpl; intros H; [assumption|].
  injection H as H. auto.
Qed.

(** C9.  For every project and epic id, the one request that
    [EpicService.Update] sends is a PUT on the path
    [projects/<projectID>/stories/<epicID>]; [EpicService.Get], for the
    same ids, addresses [projects/<projectID>/epics/<epicID>], and the two
    paths differ. *)
Theorem EpicService_Update_uses_stories_path :
  forall (client : Transport Epic) (projectID epicID : Z)
         (epic : EpicRequest) (w : World Epic),
    let path := ("projects/" ++ Sprint_int projectID ++ "/stories/"
                   ++ Sprint_int epicID)%string in
    let req := mkRequest "PUT" path (Some (EpicRequestBody epic)) None in
    let epicsPath := ("projects/" ++ Sprint_int projectID ++ "/epics/"
                        ++ Sprint_int epicID)%string in
    let reqGet := mkRequest "GET" epicsPath None None in
    fst (EpicService_Update client projectID epicID epic w)
    = w ++ [mkExchange req (client w req)]
    /\ fst (EpicService_Get client projectID epicID w)
       = w ++ [mkExchange reqGet (client w reqGet)]
    /\ path <> epicsPath.
Proof.
  intros client projectID epicID epic w path req epicsPath reqGet.
  repeat split.
  - unfold EpicService_Update, NewRequest, Do. fold path. fold req.
    destruct (client w req); reflexivity.
  - unfold EpicService_Get, NewRequest, Do. fold epicsPath. fold reqGet.
    destruct (client w reqGet); reflexivity.
  - unfold path, epicsPath. intros H.
    apply (append_cancel_l "projects/") in H.
    apply append_cancel_l in H. discriminate H.
Qed.

(** ** The eager drain over a simulated collection *)

Lemma firstn_min_enough {A : Type} (n k : nat) (l : list A) :
  (Nat.min n (List.length l) <= k)%nat ->
  firstn (Nat.min n k) l = firstn n l.
Proof.
  intros H. destruct (Nat.le_gt_cases n k) as [Hn|Hn].
  - now rewrite Nat.min_l.
  - rewrite Nat.min_r by lia.
    rewrite !firstn_all2 by lia. reflexivity.
Qed.

Lemma firstn_length_firstn {A : Type} (m : nat) (l : list A) :
  firstn (List.length (firstn m l)) l = firstn m l.
Proof.
  rewrite length_firstn.
  destruct (Nat.le_gt_cases m (List.length l)) as [H|H].
  - now rewrite Nat.min_l.
  - rewrite Nat.min_r by lia. rewrite firstn_all.
    symmetry. apply firstn_all2. lia.
Qed.

Section DrainServe.

Context {A : Type}.

Variable items : list A.
Variable cap : nat -> nat.

(* The service delivers at least one item of a non-empty collection. *)
Hypothesis cap_pos :
  forall k, (Nat.min 1 (List.length items) <= cap k)%nat.

(** One page fetch against the simulated collection. *)
Lemma cursor_next_serve (c : cursor) (w : World (list A)) (v : list A) :
  let req := withPaging (requestFn c tt) (offset c) (effectiveLimit c) in
  let page :=
    firstn (Nat.min (Z.to_nat (effectiveLimit c)) (cap (List.length w)))
           (skipn (Z.to_nat (offset c)) items) in
  let n := Z.of_nat (List.length page) in
  cursor_next (serve items cap) c w v
  = ((mkCursor (requestFn c) (limit c)
               (offset c + (if limit c =? 0 then n else limit c))
               (Z.of_nat (List.length items)),
      w ++ [mkExchange req (Success (mkMetadata (Z.of_nat (List.length items))) page)],
      v ++ page),
     (n, None)).
Proof. reflexivity. Qed.

Lemma cursor_all_serve (P : nat) :
  forall (fuel : nat) (c : cursor) (w : World (list A)) (v : list A),
    total c = Z.of_nat (List.length items) -> 0 <= offset c -> 0 <= limit c ->
    limit_honoured items cap c ->
    (limit c = 0 /\
     (forall k, (Nat.min (cap k) (List.length items) <= P)%nat))
    \/ 0 < limit c <= Z.of_nat P ->
    (List.length (remaining items c) < fuel)%nat ->
    exists c' new,
      cursor_all (serve items cap) fuel c w v
      = Some (c', w ++ new, (v ++ remaining items c, None))
      /\ List.concat (fetched_pages new) = remaining items c
      /\ Forall (fun pg => (List.length pg <= P)%nat) (fetched_pages new)
      /\ (0 < limit c ->
          Forall (fun p => snd p = limit c) (page_requests new)).
Proof.
  induction fuel as [|fuel IH]; intros c w v Ht Ho Hl Hh HP Hf; [lia|].
  unfold remaining in Hf |- *. rewrite length_skipn in Hf.
  cbn [cursor_all]. destruct (total c <=? offset c) eqn:Hdone.
  - apply Z.leb_le in Hdone.
    exists c, []. rewrite skipn_all2 by (lia).
    rewrite !app_nil_r. repeat split; constructor.
  - apply Z.leb_gt in Hdone.
    rewrite cursor_next_serve.
    set (rest := skipn (Z.to_nat (offset c)) items).
    set (page := firstn (Nat.min (Z.to_nat (effectiveLimit c))
                                 (cap (List.length w))) rest).
    set (step := if limit c =? 0 then Z.of_nat (List.length page)
                 else limit c).
    set (ex := mkExchange _ _).
    assert (Hrest : (0 < List.length rest <= List.length items)%nat)
      by (unfold rest; rewrite length_skipn; lia).
    assert (Hpage : page = firstn (Z.to_nat step) rest
                    /\ 1 <= step
                    /\ (List.length page <= P)%nat).
    { unfold step, page, effectiveLimit.
      destruct (limit c =? 0) eqn:Hz.
      - apply Z.eqb_eq in Hz. rewrite Nat2Z.id, firstn_length_firstn.
        destruct HP as [[_ HP]|HP]; [|lia].
        repeat split.
        + rewrite length_firstn.
          pose proof (cap_pos (List.length w)). lia.
        + rewrite length_firstn. pose proof (HP (List.length w)). lia.
      - apply Z.eqb_neq in Hz. destruct Hh as [Hh|Hh]; [contradiction|].
        repeat split.
        + apply firstn_min_enough.
          pose proof (Hh (List.length w)).
          unfold rest. rewrite length_skipn. lia.
        + lia.
        + rewrite length_firstn. destruct HP as [[HP _]|HP]; lia. }
    destruct Hpage as (Hpage & Hstep & HlenP).
    set (c1 := mkCursor (requestFn c) (limit c) (offset c + step)
                    (Z.of_nat (List.length items))).
    assert (Hskip : remaining items c1 = skipn (Z.to_nat step) rest).
    { unfold remaining, c1, rest; simpl. rewrite skipn_skipn.
      f_equal. lia. }
    destruct (IH c1 (w ++ [ex]) (v ++ page)) as (c' & new & Hall & Hcat & Hsz & Hrq);
      try (simpl; auto; lia).
    + rewrite Hskip, length_skipn. fold rest in Hf.
      unfold rest in *. rewrite length_skipn in *. lia.
    + exists c', (ex :: new). rewrite Hall.
      assert (Hsplit : page ++ remaining items c1 = rest)
        by (rewrite Hskip, Hpage; apply firstn_skipn).
      repeat split.
      * rewrite <- !app_assoc. simpl. rewrite Hsplit. reflexivity.
      * change (fetched_pages (ex :: new)) with (page :: fetched_pages new).
        rewrite concat_cons, Hcat. exact Hsplit.
      * change (fetched_pages (ex :: new)) with (page :: fetched_pages new).
        constructor; assumption.
      * intros Hpos.
        change (page_requests (ex :: new))
          with ((offset c, effectiveLimit c) :: page_requests new).
        constructor; [|auto].
        simpl. unfold effectiveLimit.
        destruct (limit c =? 0) eqn:Hz; [apply Z.eqb_eq in Hz; lia|reflexivity].
Qed.

End DrainServe.

Lemma StoryService_List_unfold client fuel projectId filter w :
  StoryService_List client fuel projectId filter w
  = list_with_limit client (newStoriesRequestFunc projectId filter) 0 fuel w.
Proof. reflexivity. Qed.

Lemma EpicService_List_unfold client fuel projectID filter w :
  EpicService_List client fuel projectID filter w
  = list_with_limit client (newEpicsRequestFunc projectID filter) 0 fuel w.
Proof. reflexivity. Qed.

Lemma newStoriesRequestFunc_unpaged projectId filter :
  req_paging (newStoriesRequestFunc projectId filter tt) = None.
Proof. reflexivity. Qed.

Lemma newEpicsRequestFunc_unpaged projectID filter :
  req_paging (newEpicsRequestFunc projectID filter tt) = None.
Proof. reflexivity. Qed.

Lemma list_with_limit_serve {A : Type} (items : list A) (cap : nat -> nat)
      (P : nat) (reqFunc : unit -> Request) (lim : Z) (fuel : nat)
      (w : World (list A)) :
  (forall k, (Nat.min 1 (List.length items) <= cap k)%nat) ->
  req_paging (reqFunc tt) = None ->
  (lim = 0 /\ (forall k, (Nat.min (cap k) (List.length items) <= P)%nat))
  \/ (0 < lim <= Z.of_nat P /\
      forall k, (Nat.min (Z.to_nat lim) (List.length items) <= cap k)%nat) ->
  (List.length items < fuel)%nat ->
  delivers (list_with_limit (serve items cap) reqFunc lim fuel w) w items P.
Proof.
  intros Hcap Hreq Hlim Hfuel.
  unfold list_with_limit, newCursor, Do.
  set (probe := mkExchange (reqFunc tt) (serve items cap w (reqFunc tt))).
  change (serve items cap w (reqFunc tt))
    with (Success (mkMetadata (Z.of_nat (List.length items)))
                  match req_paging (reqFunc tt) with
                  | Some (off, l) =>
                      firstn (Nat.min (Z.to_nat l) (cap (List.length w)))
                             (skipn (Z.to_nat off) items)
                  | None => items
                  end).
  cbv iota beta.
  set (c0 := mkCursor reqFunc lim 0 _).
  destruct (cursor_all_serve items cap Hcap P fuel c0 (w ++ [probe]) [])
    as (c' & new & Hall & Hcat & Hsz & _); try reflexivity.
  - simpl. destruct Hlim as [[-> _]|[Hl _]]; lia.
  - destruct Hlim as [[-> _]|[_ Hl]]; [left; reflexivity| right; exact Hl].
  - simpl. destruct Hlim as [[-> Hl]|[Hl _]]; [left; auto| right; exact Hl].
  - exact Hfuel.
  - rewrite Hall. exists (probe :: new), items.
    assert (Hfp : fetched_pages (probe :: new) = fetched_pages new).
    { unfold fetched_pages, probe. simpl. rewrite Hreq. reflexivity. }
    assert (Hrem : remaining items c0 = items) by reflexivity.
    rewrite Hfp, Hcat, Hrem, <- app_assoc. repeat split. exact Hsz.
Qed.

(** C1.  For every page size [P > 0] and every collection, of any size:
    [List], of stories and of epics, against a service that delivers the
    collection in pages of any sizes between 1 and [P], returns without
    error exactly the collection, in the order served, and this is the
    concatenation of the pages it fetched in the order it fetched them;
    and the same holds when the cursor itself is given the page size [P]
    and the service answers each request in full.  [fuel] only has to
    exceed the size of the collection. *)
Theorem List_returns_every_item_in_server_order :
  forall (P : nat) (cap : nat -> nat),
    (0 < P)%nat ->
    (forall k, (1 <= cap k <= P)%nat) ->
    (forall (stories : list (option Story)) projectId filter w fuel,
        (List.length stories < fuel)%nat ->
        delivers (StoryService_List (serve stories cap) fuel projectId filter w)
                 w stories P
        /\ delivers (list_with_limit (serve_exact stories)
                       (newStoriesRequestFunc projectId filter)
                       (Z.of_nat P) fuel w)
                    w stories P)
    /\
    (forall (epics : list (option Epic)) projectID filter w fuel,
        (List.length epics < fuel)%nat ->
        delivers (EpicService_List (serve epics cap) fuel projectID filter w)
                 w epics P
        /\ delivers (list_with_limit (serve_exact epics)
                       (newEpicsRequestFunc projectID filter)
                       (Z.of_nat P) fuel w)
                    w epics P).
Proof.
  intros P cap HP Hcap.
  split; intros items pid filter w fuel Hfuel; split.
  - rewrite StoryService_List_unfold.
    apply list_with_limit_serve; auto.
    + intros k. pose proof (Hcap k). lia.
    + left. split; [reflexivity|]. intros k. pose proof (Hcap k). lia.
  - apply list_with_limit_serve; auto.
    + intros _. lia.
    + right. split; [lia|]. intros _. lia.
  - rewrite EpicService_List_unfold.
    apply list_with_limit_serve; auto.
    + intros k. pose proof (Hcap k). lia.
    + left. split; [reflexivity|]. intros k. pose proof (Hcap k). lia.
  - apply list_with_limit_serve; auto.
    + intros _. lia.
    + right. split; [lia|]. intros _. lia.
Qed.

Lemma List_returns_every_item_in_server_order_witness :
  delivers (StoryService_List (serve stories25 (fun _ => 10%nat)) 26 1 no_filter [])
           [] stories25 10
  /\ delivers (list_with_limit (serve_exact stories25)
                 (newStoriesRequestFunc 1 no_filter) 10 26 [])
              [] stories25 10
  /\ delivers (EpicService_List (serve epics25 (fun _ => 10%nat)) 26 1 no_filter [])
              [] epics25 10
  /\ delivers (list_with_limit (serve_exact epics25)
                 (newEpicsRequestFunc 1 no_filter) 10 26 [])
              [] epics25 10.
Proof.
  assert (HP : (0 < 10)%nat) by lia.
  assert (Hcap : forall k : nat, (1 <= (fun _ : nat => 10%nat) k <= 10)%nat)
    by (intros k; lia).
  destruct (List_returns_every_item_in_server_order 10 (fun _ => 10%nat) HP Hcap)
    as [HS HE].
  assert (H25 : (List.length stories25 < 26)%nat) by (simpl; lia).
  assert (E25 : (List.length epics25 < 26)%nat) by (simpl; lia).
  destruct (HS stories25 1 no_filter [] 26%nat H25) as [HS1 HS2].
  destruct (HE epics25 1 no_filter [] 26%nat E25) as [HE1 HE2].
  repeat split; assumption.
Defined.

(** ** Termination of the eager drain under a changing total *)

Lemma last_total_cons {A : Type} (ex : Exchange (list A))
      (new : World (list A)) (d : Z) :
  last_total (ex :: new) d
  = last_total new match ex_outcome ex with
                   | Success meta _ => pagination_total meta
                   | Failure _ _ => d
                   end.
Proof. reflexivity. Qed.

Lemma serve_volatile_bounded {A : Type} (colls : nat -> list A) (B : Z) :
  (forall k, Z.of_nat (List.length (colls k)) <= B) ->
  totals_bounded (serve_volatile colls) B.
Proof.
  intros H w req meta page Heq.
  unfold serve_volatile, serve_exact, serve in Heq.
  injection Heq as <- _. apply H.
Qed.

Lemma serve_volatile_empty_page {A : Type} (colls : nat -> list A) :
  empty_page_at_end (serve_volatile colls).
Proof.
  intros w req off lim meta Heq Hp Ho Hl.
  unfold serve_volatile, serve_exact, serve in Heq. rewrite Hp in Heq.
  injection Heq as <- Hpage.
  apply (f_equal (@List.length A)) in Hpage.
  rewrite length_firstn, length_skipn in Hpage. simpl in Hpage |- *. lia.
Qed.

(** C3, amended.  The eager drain tests the cursor's total before every fetch, and
    each fetch replaces that total by the one the service has just
    reported.  Against any service whose reported totals stay below a
    bound [B], and which (for the fetch-all sentinel) answers with an
    empty page only at or past the total it reports, the drain returns
    after at most [B - offset] fetches, whether or not the totals
    reported along the way agree; and when it returns without error the
    offset has reached the total reported last. *)
Theorem all_terminates_on_latest_total :
  forall (A : Type) (client : Transport (list A)) (B : Z)
         (c : cursor) (w : World (list A)) (v : list A) (fuel : nat),
    totals_bounded client B ->
    (limit c = 0 -> empty_page_at_end client) ->
    0 <= limit c -> 0 <= offset c -> total c <= B ->
    (Z.to_nat (B - offset c) < fuel)%nat ->
    exists c' new r,
      cursor_all client fuel c w v = Some (c', w ++ new, r)
      /\ (List.length new <= Z.to_nat (B - offset c))%nat
      /\ (snd r = None ->
          total c' <= offset c' /\ total c' = last_total new (total c)).
Proof.
  intros A client B c w v fuel bounded. revert c w v.
  induction fuel as [|fuel IH]; intros c w v Hend Hl Ho Ht Hf; [lia|].
  cbn [cursor_all]. destruct (total c <=? offset c) eqn:Hdone.
  - apply Z.leb_le in Hdone. exists c, [], (v, None).
    rewrite app_nil_r. repeat split; simpl; auto; lia.
  - apply Z.leb_gt in Hdone. unfold cursor_next, Do.
    set (req := withPaging (requestFn c tt) (offset c) (effectiveLimit c)).
    destruct (client w req) as [meta page|meta e] eqn:Hc.
    + pose proof (bounded _ _ _ _ Hc) as Hb.
      set (step := if limit c =? 0 then Z.of_nat (List.length page)
                   else limit c).
      set (c1 := mkCursor (requestFn c) (limit c) (offset c + step)
                          (pagination_total meta)).
      set (ex := mkExchange req (Success meta page)).
      assert (Hstep : 1 <= step \/ (step = 0 /\ page = [] /\ limit c = 0)).
      { unfold step. destruct (limit c =? 0) eqn:Hz.
        - apply Z.eqb_eq in Hz. destruct page; [right; auto|left].
          simpl List.length. lia.
        - apply Z.eqb_neq in Hz. left. lia. }
      destruct Hstep as [Hstep|(Hstep & Hpage & Hz)].
      * destruct (IH c1 (w ++ [ex]) (v ++ page))
          as (c' & new & r & Hall & Hlen & Hres);
          try (simpl; auto; lia).
        exists c', (ex :: new), r. rewrite Hall, <- app_assoc.
        split; [reflexivity|]. split.
        -- simpl List.length. simpl in Hlen. lia.
        -- intros Hr. rewrite last_total_cons. apply Hres, Hr.
      * subst page. assert (Hlast : pagination_total meta <= offset c).
        { apply (Hend Hz w req (offset c) (effectiveLimit c) meta Hc);
            [reflexivity|assumption|].
          unfold effectiveLimit. rewrite Hz. simpl. lia. }
        destruct fuel as [|fuel]; [lia|].
        cbn [cursor_all]. fold ex. fold step. fold c1.
        assert (Hnow : (total c1 <=? offset c1) = true)
          by (apply Z.leb_le; simpl; lia).
        rewrite Hnow. exists c1, [ex], (v ++ [], None).
        repeat split; simpl; try lia.
    + exists c, [mkExchange req (Failure meta e)], ([], Some e).
      repeat split; simpl; try lia. discriminate.
Qed.

Lemma all_terminates_on_latest_total_witness :
  let client := serve_volatile shrinking_stories in
  let reqFunc := newStoriesRequestFunc 1 no_filter in
  let c := mkCursor reqFunc 0 0 25 in
  let w := fst (newCursor client reqFunc 0 []) in
  totals_bounded client 25
  /\ empty_page_at_end client
  /\ exists c' new r,
      cursor_all client 26 c w [] = Some (c', w ++ new, r)
      /\ (List.length new <= Z.to_nat (25 - offset c))%nat
      /\ (snd r = None ->
          total c' <= offset c' /\ total c' = last_total new (total c)).
Proof.
  intros client reqFunc c w.
  assert (Hb : totals_bounded client 25).
  { apply serve_volatile_bounded. intros [|k]; simpl; lia. }
  assert (He : empty_page_at_end client)
    by apply serve_volatile_empty_page.
  split; [exact Hb|]. split; [exact He|].
  apply (all_terminates_on_latest_total _ client 25 c w [] 26%nat);
    simpl; auto; lia.
Defined.

Lemma over_reporting_first_page (w : World (list (option Story))) :
  w <> [] ->
  exists ex,
    cursor_next over_reporting
                (mkCursor (newStoriesRequestFunc 1 no_filter) 0 0 25) w []
    = ((mkCursor (newStoriesRequestFunc 1 no_filter) 0 20 22,
        w ++ [ex], stories20), (20, None)).
Proof.
  intros Hw. destruct w as [|ex0 w]; [now elim Hw|].
  eexists. reflexivity.
Qed.

Lemma over_reporting_empty_page (w : World (list (option Story)))
      (v : list (option Story)) :
  w <> [] ->
  exists ex,
    cursor_next over_reporting
                (mkCursor (newStoriesRequestFunc 1 no_filter) 0 20 22) w v
    = ((mkCursor (newStoriesRequestFunc 1 no_filter) 0 20 22,
        w ++ [ex], v ++ []), (0, None)).
Proof.
  intros Hw. destruct w as [|ex0 w]; [now elim Hw|].
  eexists. reflexivity.
Qed.

(** At offset 20 with a total of 22 the drain is back where it was after
    every fetch. *)
Lemma over_reporting_stuck :
  forall (fuel : nat) (w : World (list (option Story)))
         (v : list (option Story)),
    w <> [] ->
    cursor_all over_reporting fuel
               (mkCursor (newStoriesRequestFunc 1 no_filter) 0 20 22) w v
    = None.
Proof.
  induction fuel as [|fuel IH]; intros w v Hw; [reflexivity|].
  cbn [cursor_all].
  destruct (over_reporting_empty_page w v Hw) as [ex ->].
  change (total (mkCursor (newStoriesRequestFunc 1 no_filter) 0 20 22)
          <=? offset (mkCursor (newStoriesRequestFunc 1 no_filter) 0 20 22))
    with false.
  cbv iota. apply IH. now destruct w.
Qed.

(** C3, the claim as stated, at a service that holds 20 stories and
    reports a total of 25 when the cursor is built and of 22 on every
    page: the totals differ from one exchange to the next and never
    exceed 25.  The first page fetch of [List] brings the 20 stories and
    the offset to 20; every later fetch brings an empty page and the
    total 22, so the offset stays at 20, below the latest total: the drain
    has not returned after 200 iterations, and no amount of fuel makes it
    return. *)
Lemma all_does_not_return_when_the_total_stays_ahead :
  totals_bounded over_reporting 25
  /\ StoryService_List over_reporting 200 1 no_filter [] = None
  /\ ~ (exists fuel r,
           StoryService_List over_reporting fuel 1 no_filter [] = Some r).
Proof.
  split; [|split; [reflexivity|]].
  - intros w req meta page H. unfold over_reporting, serve_reporting in H.
    injection H as <- _. destruct (List.length w); simpl; lia.
  - intros (fuel & r & H). unfold StoryService_List in H. cbv zeta in H.
    destruct fuel as [|fuel]; [discriminate H|].
    unfold newCursor, Do in H.
    change (over_reporting [] (newStoriesRequestFunc 1 no_filter tt))
      with (Success (mkMetadata 25) stories20) in H.
    cbv iota beta zeta in H. cbn [cursor_all pagination_total] in H.
    change (total (mkCursor (newStoriesRequestFunc 1 no_filter) 0 0 25)
            <=? offset (mkCursor (newStoriesRequestFunc 1 no_filter) 0 0 25))
      with false in H.
    cbv iota in H.
    match type of H with
    | context [cursor_next over_reporting _ ?w0 []] =>
        destruct (over_reporting_first_page w0) as [ex E];
          [simpl; discriminate|]
    end.
    rewrite E, over_reporting_stuck in H; [discriminate H|].
    simpl. discriminate.
Qed.

(** ** Eager listing is all-or-nothing *)

Section DrainErrors.

Context {A : Type}.

Variable client : Transport (list A).

Lemma cursor_all_errors :
  forall (fuel : nat) (c : cursor) (w : World (list A)) (v : list A)
         c' w' res err,
    cursor_all client fuel c w v = Some (c', w', (res, err)) ->
    exists new,
      w' = w ++ new
      /\ (forall ex e, In ex new -> failed_with ex e ->
                       err = Some e /\ res = [])
      /\ (forall e, err = Some e ->
                    res = [] /\ exists ex, In ex new /\ failed_with ex e).
Proof.
  induction fuel as [|fuel IH]; intros c w v c' w' res err H; [discriminate|].
  cbn [cursor_all] in H. destruct (total c <=? offset c).
  - injection H as <- <- <- <-. exists []. rewrite app_nil_r.
    repeat split; try discriminate; contradiction.
  - unfold cursor_next, Do in H.
    set (req := withPaging (requestFn c tt) (offset c) (effectiveLimit c)) in H.
    destruct (client w req) as [meta page|meta e].
    + apply IH in H. destruct H as (new & -> & Hfail & Herr).
      exists (mkExchange req (Success meta page) :: new).
      rewrite <- app_assoc. split; [reflexivity|]. split.
      * intros ex e [<-|Hin] Hf; [|eauto].
        destruct Hf as [m Hm]. discriminate Hm.
      * intros e He. destruct (Herr e He) as (Hres & ex & Hin & Hf).
        split; [assumption|]. exists ex. split; [right|]; assumption.
    + injection H as <- <- <- <-.
      exists [mkExchange req (Failure meta e)]. split; [reflexivity|]. split.
      * intros ex e0 [<-|[]] [m Hm]. injection Hm as _ <-. auto.
      * intros e0 He0. injection He0 as <-. split; [reflexivity|].
        eexists. split; [left; reflexivity|]. exists meta. reflexivity.
Qed.

Lemma cursor_all_returns_when_failing (k : nat) (e : error) :
  fails_at client k e ->
  forall (fuel : nat) (c : cursor) (w : World (list A)) (v : list A),
    (List.length w <= k)%nat ->
    (k - List.length w < fuel)%nat ->
    exists c' w' r, cursor_all client fuel c w v = Some (c', w', r).
Proof.
  intros Hk. induction fuel as [|fuel IH]; intros c w v Hw Hf; [lia|].
  cbn [cursor_all]. destruct (total c <=? offset c); [eauto|].
  unfold cursor_next, Do.
  set (req := withPaging (requestFn c tt) (offset c) (effectiveLimit c)).
  destruct (Nat.eq_dec (List.length w) k) as [Heq|Hne].
  - rewrite (Hk w req Heq). eauto.
  - destruct (client w req) as [meta page|meta e']; [|eauto].
    apply IH; rewrite length_app; simpl; lia.
Qed.

Lemma list_with_limit_all_or_nothing (reqFunc : unit -> Request) (lim : Z)
      (fuel : nat) (w w' : World (list A)) result err :
  list_with_limit client reqFunc lim fuel w = Some (w', (result, err)) ->
  all_or_nothing w w' result err.
Proof.
  unfold list_with_limit, newCursor, Do.
  set (req := reqFunc tt).
  destruct (client w req) as [meta doc|meta e].
  - destruct (cursor_all _ _ _ _ _) as [[[c' w2] [res [e|]]]|] eqn:Hall;
      intros H; [| |discriminate]; injection H as <- <- <-;
      apply cursor_all_errors in Hall;
      destruct Hall as (new & -> & Hfail & Herr);
      exists (mkExchange req (Success meta doc) :: new);
      rewrite <- app_assoc; (split; [reflexivity|]).
    + refine (conj _ (conj _ _)).
      * intros ex e0 [<-|Hin] Hf;
          [destruct Hf as [m Hm]; discriminate Hm|].
        destruct (Hfail ex e0 Hin Hf) as [He0 _]. auto.
      * intros e0 He0. destruct (Herr e0 He0) as (_ & ex & Hin & Hf).
        exists ex. split; [right|]; assumption.
      * reflexivity.
    + refine (conj _ (conj _ _)).
      * intros ex e0 [<-|Hin] Hf;
          [destruct Hf as [m Hm]; discriminate Hm|].
        destruct (Hfail ex e0 Hin Hf) as [He0 _]. discriminate He0.
      * discriminate.
      * congruence.
  - intros H. injection H as <- <- <-.
    exists [mkExchange req (Failure meta e)]. split; [reflexivity|].
    refine (conj _ (conj _ _)).
    + intros ex e0 [<-|[]] [m Hm]. injection Hm as _ <-. auto.
    + intros e0 He0. injection He0 as <-.
      eexists. split; [left; reflexivity|]. exists meta. reflexivity.
    + reflexivity.
Qed.

Lemma list_with_limit_returns_when_failing (k : nat) (e : error)
      (reqFunc : unit -> Request) (lim : Z) (fuel : nat)
      (w : World (list A)) :
  fails_at client k e ->
  (List.length w <= k)%nat ->
  (k - List.length w < fuel)%nat ->
  exists w' result err,
    list_with_limit client reqFunc lim fuel w = Some (w', (result, err)).
Proof.
  intros Hk Hw Hf. unfold list_with_limit, newCursor, Do.
  set (req := reqFunc tt).
  destruct (client w req) as [meta doc|meta e0] eqn:Hc; [|eauto].
  assert (Hlt : (List.length w < k)%nat).
  { destruct (Nat.eq_dec (List.length w) k) as [Heq|Hne]; [|lia].
    rewrite (Hk w req Heq) in Hc. discriminate Hc. }
  destruct (cursor_all_returns_when_failing k e Hk fuel
              (mkCursor reqFunc lim 0 (pagination_total meta))
              (w ++ [mkExchange req (Success meta doc)]) [])
    as (c' & w' & [res [e1|]] & Hall);
    try (rewrite length_app; simpl; lia);
    rewrite Hall; eauto.
Qed.

End DrainErrors.

(** C4.  [List], of stories and of epics, is all-or-nothing against any
    service: whenever it returns, a failure of any of its exchanges makes
    it return that error and no items, an error it returns is the error
    of one of its exchanges, and an error never comes with items; and
    against a service whose exchange number [k] fails it does return,
    with fuel for the exchanges up to that one. *)
Theorem List_is_all_or_nothing :
  (forall (client : Transport (list (option Story))) fuel projectId filter
          w w' stories err,
      StoryService_List client fuel projectId filter w
      = Some (w', (stories, err)) ->
      all_or_nothing w w' stories err)
  /\
  (forall (client : Transport (list (option Epic))) fuel projectID filter
          w w' epics err,
      EpicService_List client fuel projectID filter w
      = Some (w', (epics, err)) ->
      all_or_nothing w w' epics err)
  /\
  (forall (client : Transport (list (option Story))) k e fuel projectId filter w,
      fails_at client k e ->
      (List.length w <= k)%nat -> (k - List.length w < fuel)%nat ->
      exists w' stories err,
        StoryService_List client fuel projectId filter w
        = Some (w', (stories, err)))
  /\
  (forall (client : Transport (list (option Epic))) k e fuel projectID filter w,
      fails_at client k e ->
      (List.length w <= k)%nat -> (k - List.length w < fuel)%nat ->
      exists w' epics err,
        EpicService_List client fuel projectID filter w
        = Some (w', (epics, err))).
Proof.
  repeat split.
  - intros client fuel pid filter w w' res err.
    rewrite StoryService_List_unfold. apply list_with_limit_all_or_nothing.
  - intros client fuel pid filter w w' res err.
    rewrite EpicService_List_unfold. apply list_with_limit_all_or_nothing.
  - intros client k e fuel pid filter w.
    rewrite StoryService_List_unfold.
    apply list_with_limit_returns_when_failing.
  - intros client k e fuel pid filter w.
    rewrite EpicService_List_unfold.
    apply list_with_limit_returns_when_failing.
Qed.

Lemma List_is_all_or_nothing_witness :
  let e := TransportError 500 in
  let story_client :=
    failing_at 2 e (serve stories25 (fun _ => 10%nat)) in
  let epic_client :=
    failing_at 2 e (serve epics25 (fun _ => 10%nat)) in
  (exists w',
      StoryService_List story_client 26 1 no_filter [] = Some (w', ([], Some e))
      /\ map (fun pg => List.length pg) (fetched_pages w') = [10%nat]
      /\ all_or_nothing [] w' [] (Some e))
  /\ (exists w',
         EpicService_List epic_client 26 1 no_filter [] = Some (w', ([], Some e))
         /\ map (fun pg => List.length pg) (fetched_pages w') = [10%nat]
         /\ all_or_nothing [] w' [] (Some e))
  /\ (exists w' stories err,
         StoryService_List story_client 3 1 no_filter [] = Some (w', (stories, err)))
  /\ (exists w' epics err,
         EpicService_List epic_client 3 1 no_filter [] = Some (w', (epics, err))).
Proof.
  intros e story_client epic_client.
  destruct List_is_all_or_nothing as (HS & HE & HSr & HEr).
  refine (conj _ (conj _ (conj _ _))).
  - eexists. split; [vm_compute; reflexivity|].
    split; [vm_compute; reflexivity|].
    apply (HS story_client 26%nat 1 no_filter). vm_compute. reflexivity.
  - eexists. split; [vm_compute; reflexivity|].
    split; [vm_compute; reflexivity|].
    apply (HE epic_client 26%nat 1 no_filter). vm_compute. reflexivity.
  - apply (HSr story_client 2%nat e); simpl; try lia.
    intros w req Hw. unfold story_client, failing_at. rewrite Hw. reflexivity.
  - apply (HEr epic_client 2%nat e); simpl; try lia.
    intros w req Hw. unfold epic_client, failing_at. rewrite Hw. reflexivity.
Defined.

(** ** Lazy iteration over a simulated collection *)

Section LazyServe.

Context {T : Type}.

Variable items : list (option T).
Variable cap : nat -> nat.

(** Draining a typed cursor whose page size the service honours yields
    its buffer followed by what its cursor has still to deliver. *)
Lemma Next_until_EOF_serve :
  forall (fuel : nat) (c : TypedCursor T) (w : World (list (option T))),
    0 < limit (tc_cursor c) -> 0 <= offset (tc_cursor c) ->
    (forall k, (Nat.min (Z.to_nat (limit (tc_cursor c))) (List.length items)
                <= cap k)%nat) ->
    (List.length (buff c) + List.length (remaining items (tc_cursor c))
     < fuel)%nat ->
    exists new,
      Next_until_EOF (cursor_next (serve items cap)) fuel c w
      = Some (w ++ new, (buff c ++ remaining items (tc_cursor c), None))
      /\ Forall (fun p => snd p = limit (tc_cursor c)) (page_requests new).
Proof.
  induction fuel as [|fuel IH]; intros [cur b] w Hl Ho Hh Hf; [lia|].
  simpl tc_cursor in *. simpl buff in *. cbn [Next_until_EOF].
  destruct b as [|s b'].
  - rewrite Next_empty by reflexivity. simpl tc_cursor.
    rewrite cursor_next_serve. cbv zeta. simpl app.
    unfold effectiveLimit.
    destruct (limit cur =? 0) eqn:Hz; [apply Z.eqb_eq in Hz; lia|].
    set (rest := skipn (Z.to_nat (offset cur)) items).
    assert (Hrest : remaining items cur = rest) by reflexivity.
    rewrite firstn_min_enough
      by (pose proof (Hh (List.length w)); unfold rest;
          rewrite length_skipn; lia).
    set (ex := mkExchange _ _).
    set (c1 := mkCursor _ _ _ _).
    assert (Hrem : remaining items c1 = skipn (Z.to_nat (limit cur)) rest).
    { unfold remaining, c1, rest. simpl. rewrite skipn_skipn.
      f_equal. lia. }
    destruct (firstn (Z.to_nat (limit cur)) rest) as [|s pt] eqn:Hpage.
    + exists [ex]. split; [|repeat constructor].
      assert (Hnil : rest = []).
      { destruct rest as [|x rest']; [reflexivity|].
        destruct (Z.to_nat (limit cur)) eqn:Hn; [lia|discriminate Hpage]. }
      rewrite Hrest, Hnil. reflexivity.
    + assert (Hsplit : (s :: pt) ++ remaining items c1 = rest)
        by (rewrite Hrem, <- Hpage; apply firstn_skipn).
      destruct (IH (mkTypedCursor c1 pt) (w ++ [ex]))
        as (new & Hrun & Hrq); try (simpl; auto; lia).
      * simpl tc_cursor. simpl buff.
        apply (f_equal (@List.length _)) in Hsplit.
        rewrite length_app in Hsplit. simpl in Hsplit.
        rewrite Hrest in Hf. simpl in Hf. lia.
      * rewrite Hrun. exists (ex :: new). simpl tc_cursor. simpl buff.
        rewrite <- app_assoc. simpl app at 1.
        rewrite Hrest, <- Hsplit. split; [reflexivity|].
        change (page_requests (ex :: new))
          with ((offset cur, limit cur) :: page_requests new).
        constructor; [reflexivity|exact Hrq].
  - rewrite (Next_nonempty _ (mkTypedCursor cur (s :: b')) w s b' eq_refl).
    simpl tc_cursor.
    destruct (IH (mkTypedCursor cur b') w) as (new & Hrun & Hrq);
      try (simpl; auto; lia).
    + simpl in Hf |- *. lia.
    + rewrite Hrun. exists new. split; [reflexivity|exact Hrq].
Qed.

End LazyServe.

Lemma Iterate_all_serve {T : Type} (items : list (option T))
      (cap : nat -> nat) (reqFunc : unit -> Request) (fuel : nat)
      (w : World (list (option T))) :
  (forall k, (Nat.min (Z.to_nat PageLimit) (List.length items) <= cap k)%nat) ->
  (List.length items < fuel)%nat ->
  exists new,
    match newCursor (serve items cap) reqFunc PageLimit w with
    | (w1, Ok cursor) =>
        Next_until_EOF (cursor_next (serve items cap)) fuel
                       (mkTypedCursor cursor []) w1
    | (w1, Err err) => Some (w1, ([], Some err))
    end = Some (w ++ new, (items, None)).
Proof.
  intros Hcap Hfuel. unfold newCursor, Do.
  change (serve items cap w (reqFunc tt))
    with (Success (mkMetadata (Z.of_nat (List.length items)))
                  match req_paging (reqFunc tt) with
                  | Some (off, l) =>
                      firstn (Nat.min (Z.to_nat l) (cap (List.length w)))
                             (skipn (Z.to_nat off) items)
                  | None => items
                  end).
  cbv iota beta.
  set (probe := mkExchange _ _). set (c0 := mkCursor _ _ _ _).
  destruct (Next_until_EOF_serve items cap fuel (mkTypedCursor c0 [])
                                 (w ++ [probe]))
    as (new & Hrun & _); try (simpl; auto; unfold PageLimit; lia).
  exists (probe :: new). rewrite Hrun, <- app_assoc. reflexivity.
Qed.



(** What a drain or an iteration returns does not depend on the fuel it
    is given, once the fuel suffices. *)
Lemma cursor_all_fuel {A : Type} (client : Transport (list A)) :
  forall (fuel fuel' : nat) (c : cursor) (w : World (list A)) (v : list A)
         r r',
    cursor_all client fuel c w v = Some r ->
    cursor_all client fuel' c w v = Some r' ->
    r = r'.
Proof.
  induction fuel as [|fuel IH]; intros [|fuel'] c w v r r';
    cbn [cursor_all]; try discriminate.
  destruct (total c <=? offset c); [congruence|].
  destruct (cursor_next client c w v) as [[[c' w'] v'] [n [e|]]];
    [congruence|apply IH].
Qed.

Lemma Next_until_EOF_fuel {T : Type} (next : PageFetch (option T)) :
  forall (fuel fuel' : nat) (c : TypedCursor T) (w : World (list (option T)))
         r r',
    Next_until_EOF next fuel c w = Some r ->
    Next_until_EOF next fuel' c w = Some r' ->
    r = r'.
Proof.
  induction fuel as [|fuel IH]; intros [|fuel'] c w r r';
    cbn [Next_until_EOF]; try discriminate.
  destruct (TypedCursor_Next next c w) as [[c' w'] [s [e|]]].
  - destruct e; congruence.
  - destruct (Next_until_EOF next fuel c' w') as [[w1 [l1 e1]]|] eqn:H1;
      [|discriminate].
    destruct (Next_until_EOF next fuel' c' w') as [[w2 [l2 e2]]|] eqn:H2;
      [|discriminate].
    pose proof (IH _ _ _ _ _ H1 H2). congruence.
Qed.

Lemma StoryService_List_fuel (client : Transport (list (option Story))) :
  forall fuel fuel' projectId filter w r r',
    StoryService_List client fuel projectId filter w = Some r ->
    StoryService_List client fuel' projectId filter w = Some r' ->
    r = r'.
Proof.
  intros fuel fuel' p f w r r'. unfold StoryService_List. cbv zeta.
  destruct (newCursor client _ 0 w) as [w1 [c|e]]; [|congruence].
  destruct (cursor_all client fuel c w1 []) as [[[c1 w2] [l1 e1]]|] eqn:H1;
    [|discriminate].
  destruct (cursor_all client fuel' c w1 []) as [[[c1' w2'] [l1' e1']]|] eqn:H2;
    [|discriminate].
  pose proof (cursor_all_fuel _ _ _ _ _ _ _ _ H1 H2) as E.
  injection E as -> -> -> ->. congruence.
Qed.

Lemma StoryService_Iterate_all_fuel
      (client : Transport (list (option Story))) :
  forall fuel fuel' projectId filter w r r',
    StoryService_Iterate_all client fuel projectId filter w = Some r ->
    StoryService_Iterate_all client fuel' projectId filter w = Some r' ->
    r = r'.
Proof.
  intros fuel fuel' p f w r r'. unfold StoryService_Iterate_all.
  destruct (StoryService_Iterate client p f w) as [w1 [[c|] [e|]]];
    try congruence.
  apply Next_until_EOF_fuel.
Qed.


(** ** End-of-sequence is final *)

Section EOFIsFinal.

Context {T : Type}.

Variable client : Transport (list (option T)).
Variable items : list (option T).
Variable cap : nat -> nat.

Hypothesis honest : serves_or_fails client items cap.
Hypothesis cap_pos :
  forall k, (Nat.min 1 (List.length items) <= cap k)%nat.

Lemma cursor_next_honest (cur : cursor) (w : World (list (option T)))
      (v : list (option T)) :
  cursor_next client cur w v = cursor_next (serve items cap) cur w v
  \/ exists w' e,
      is_failure e /\ cursor_next client cur w v = ((cur, w', v), (0, Some e)).
Proof.
  unfold cursor_next, Do.
  set (req := withPaging _ _ _).
  destruct (honest w req) as [Heq|(meta & e & He & Heq)]; rewrite Heq.
  - left. reflexivity.
  - right. eauto.
Qed.

Lemma Next_EOF_exhausts (c c' : TypedCursor T)
      (w w' : World (list (option T))) (s : option T) :
  0 < limit (tc_cursor c) -> 0 <= offset (tc_cursor c) ->
  TypedCursor_Next (cursor_next client) c w = ((c', w'), (s, Some io_EOF)) ->
  exhausted items c'.
Proof.
  intros Hl Ho H. destruct c as [cur b]. simpl in Hl, Ho.
  destruct b as [|s0 b'];
    [|rewrite (Next_nonempty _ (mkTypedCursor cur (s0 :: b')) w s0 b' eq_refl)
        in H; discriminate H].
  rewrite Next_empty in H by reflexivity. simpl tc_cursor in H.
  destruct (cursor_next_honest cur w []) as [Heq|(w1 & e & He & Heq)];
    rewrite Heq in H.
  - rewrite cursor_next_serve in H. cbv zeta in H. simpl app in H.
    unfold effectiveLimit in H.
    destruct (limit cur =? 0) eqn:Hz; [apply Z.eqb_eq in Hz; lia|].
    set (rest := skipn (Z.to_nat (offset cur)) items) in H.
    destruct (firstn _ rest) as [|x page] eqn:Hpage in H;
      [|discriminate H].
    injection H as <- _ _. unfold exhausted. simpl.
    split; [reflexivity|]. split; [assumption|].
    apply (f_equal (@List.length _)) in Hpage.
    rewrite length_firstn in Hpage. unfold rest in Hpage.
    rewrite length_skipn in Hpage. simpl in Hpage.
    pose proof (cap_pos (List.length w)). lia.
  - injection H as _ _ _ He'. subst e. now elim He.
Qed.

Lemma Next_exhausted (c : TypedCursor T) (w : World (list (option T))) :
  exhausted items c ->
  exists c' w',
    (TypedCursor_Next (cursor_next client) c w
     = ((c', w'), (None, Some io_EOF)) /\ exhausted items c')
    \/ (exists e, is_failure e /\
                  TypedCursor_Next (cursor_next client) c w
                  = ((c', w'), (None, Some e))).
Proof.
  intros (Hb & Hl & Ho). destruct c as [cur b]. simpl in *. subst b.
  rewrite Next_empty by reflexivity. simpl tc_cursor.
  destruct (cursor_next_honest cur w []) as [Heq|(w1 & e & He & Heq)];
    rewrite Heq.
  - rewrite cursor_next_serve. cbv zeta. simpl app.
    rewrite skipn_all2 by lia. rewrite firstn_nil.
    do 2 eexists. left. split; [reflexivity|].
    unfold exhausted. simpl. repeat split; try assumption.
    destruct (limit cur =? 0) eqn:Hz; [apply Z.eqb_eq in Hz|]; lia.
  - do 2 eexists. right. exists e. split; [assumption|reflexivity].
Qed.

Lemma Next_times_exhausted :
  forall (k : nat) (c : TypedCursor T) (w : World (list (option T))),
    exhausted items c ->
    no_failure (Next_times (cursor_next client) k c w) ->
    all_EOF (Next_times (cursor_next client) k c w).
Proof.
  induction k as [|k IH]; intros c w Hex Hno; [constructor|].
  cbn [Next_times] in *.
  destruct (Next_exhausted c w Hex)
    as (c' & w' & [[Heq Hex']|(e & He & Heq)]); rewrite Heq in *.
  - inversion Hno; subst. constructor; [reflexivity|]. now apply IH.
  - inversion Hno as [|r rs Hr _]; subst.
    specialize (Hr e eq_refl). now elim He.
Qed.

End EOFIsFinal.




(** ** The page size of [Iterate] *)

Lemma list_with_limit_exact_single_fetch {A : Type} (items : list A)
      (reqFunc : unit -> Request) (fuel : nat) (w : World (list A)) :
  req_paging (reqFunc tt) = None ->
  items <> [] ->
  (List.length items < fuel)%nat ->
  exists probe fetch,
    list_with_limit (serve_exact items) reqFunc 0 fuel w
    = Some (w ++ [probe; fetch], (items, None))
    /\ page_requests [probe; fetch] = [(0, Z.of_nat (List.length items))].
Proof.
  intros Hreq Hne Hfuel.
  destruct items as [|x items']; [contradiction|].
  destruct fuel as [|[|fuel]]; simpl in Hfuel; try lia.
  set (items := x :: items').
  unfold list_with_limit, newCursor, Do.
  set (probe := mkExchange (reqFunc tt) (serve_exact items w (reqFunc tt))).
  change (serve_exact items w (reqFunc tt))
    with (Success (mkMetadata (Z.of_nat (List.length items)))
                  match req_paging (reqFunc tt) with
                  | Some (off, l) =>
                      firstn (Nat.min (Z.to_nat l) (List.length items))
                             (skipn (Z.to_nat off) items)
                  | None => items
                  end).
  cbv iota beta.
  set (c0 := mkCursor reqFunc 0 0 _).
  cbn [cursor_all].
  change (total c0 <=? offset c0) with false. cbv iota.
  unfold serve_exact. rewrite cursor_next_serve. cbv zeta.
  change (effectiveLimit c0) with (Z.of_nat (List.length items)).
  change (skipn (Z.to_nat (offset c0)) items) with items.
  rewrite Nat2Z.id, Nat.min_id, firstn_all.
  set (fetch := mkExchange _ _).
  set (c1 := mkCursor _ _ _ _).
  assert (Hdone : (total c1 <=? offset c1) = true)
    by (apply Z.leb_le; unfold c1; simpl; lia).
  rewrite Hdone. exists probe, fetch. rewrite <- app_assoc.
  split; [reflexivity|].
  unfold page_requests, probe, fetch. simpl. rewrite Hreq. reflexivity.
Qed.

Lemma Iterate_first_fetch {T : Type} (items : list (option T))
      (reqFunc : unit -> Request) (w : World (list (option T))) :
  req_paging (reqFunc tt) = None ->
  exists probe c,
    newCursor (serve_exact items) reqFunc PageLimit w = (w ++ [probe], Ok c)
    /\ limit c = PageLimit
    /\ total c = Z.of_nat (List.length items)
    /\ exists c' fetch r,
        TypedCursor_Next (cursor_next (serve_exact items))
                         (mkTypedCursor c []) (w ++ [probe])
        = ((c', w ++ [probe; fetch]), r)
        /\ page_requests [probe; fetch] = [(0, PageLimit)].
Proof.
  intros Hreq. do 2 eexists. split; [reflexivity|].
  split; [reflexivity|]. split; [reflexivity|].
  rewrite Next_empty by reflexivity. simpl tc_cursor.
  unfold serve_exact at 1. rewrite cursor_next_serve. cbv zeta. simpl app.
  set (page := firstn _ _).
  destruct page; do 3 eexists; rewrite <- app_assoc;
    (split; [reflexivity|]);
    unfold page_requests; simpl; rewrite Hreq; reflexivity.
Qed.

(** C8, the claim as stated, at a collection of 35 stories: neither does
    [Iterate] hand the sentinel 0 to its cursor, nor does the page fetch
    of the first [Next] ask for 35 items or more. *)
Lemma Iterate_does_not_use_the_fetch_all_sentinel :
  ~ (exists w1 c,
        StoryService_Iterate (serve_exact stories35) 1 no_filter [] = (w1, (Some c, None))
        /\ (limit (tc_cursor c) = 0
            \/ exists c' w2 r off lim,
                StoryCursor_Next (cursor_next (serve_exact stories35)) c w1
                = ((c', w2), r)
                /\ page_requests w2 = [(off, lim)]
                /\ 35 <= lim)).
Proof.
  intros (w1 & c & HI & H).
  unfold StoryService_Iterate, newCursor, Do in HI.
  injection HI as <- <-.
  destruct H as [Hlim|(c' & w2 & r & off & lim & HN & Hrq & H35)].
  - discriminate Hlim.
  - vm_compute in HN. injection HN as _ <- _.
    vm_compute in Hrq. injection Hrq as _ <-. lia.
Qed.

(** C8, amended.  [Iterate], of stories and of epics, hands [PageLimit],
    which is 10, to its cursor: once construction has learned the total,
    the page fetch of the first [Next] asks for 10 items from offset 0,
    whatever the size of the collection.  The request sized to the whole
    collection is the one [List] issues, whose cursor is built with the
    sentinel 0: against a non-empty collection it asks for as many items
    as the total from offset 0, in a single page fetch. *)
Theorem Iterate_page_size_is_PageLimit :
  (forall (stories : list (option Story)) projectId filter w,
      exists probe c,
        StoryService_Iterate (serve_exact stories) projectId filter w
        = (w ++ [probe], (Some c, None))
        /\ limit (tc_cursor c) = PageLimit /\ PageLimit = 10
        /\ buff c = []
        /\ exists c' fetch r,
            StoryCursor_Next (cursor_next (serve_exact stories)) c (w ++ [probe])
            = ((c', w ++ [probe; fetch]), r)
            /\ page_requests [probe; fetch] = [(0, 10)])
  /\
  (forall (epics : list (option Epic)) projectID filter w,
      exists probe c,
        EpicService_Iterate (serve_exact epics) projectID filter w
        = (w ++ [probe], (Some c, None))
        /\ limit (tc_cursor c) = PageLimit /\ PageLimit = 10
        /\ buff c = []
        /\ exists c' fetch r,
            EpicCursor_Next (cursor_next (serve_exact epics)) c (w ++ [probe])
            = ((c', w ++ [probe; fetch]), r)
            /\ page_requests [probe; fetch] = [(0, 10)])
  /\
  (forall (stories : list (option Story)) projectId filter w fuel,
      stories <> [] -> (List.length stories < fuel)%nat ->
      exists probe fetch,
        StoryService_List (serve_exact stories) fuel projectId filter w
        = Some (w ++ [probe; fetch], (stories, None))
        /\ page_requests [probe; fetch]
           = [(0, Z.of_nat (List.length stories))])
  /\
  (forall (epics : list (option Epic)) projectID filter w fuel,
      epics <> [] -> (List.length epics < fuel)%nat ->
      exists probe fetch,
        EpicService_List (serve_exact epics) fuel projectID filter w
        = Some (w ++ [probe; fetch], (epics, None))
        /\ page_requests [probe; fetch]
           = [(0, Z.of_nat (List.length epics))]).
Proof.
  refine (conj _ (conj _ (conj _ _))).
  - intros stories pid filter w.
    destruct (Iterate_first_fetch stories (newStoriesRequestFunc pid filter) w
                (newStoriesRequestFunc_unpaged pid filter))
      as (probe & c & Hnew & Hlim & _ & c' & fetch & r & HN & Hrq).
    exists probe, (mkTypedCursor c []).
    unfold StoryService_Iterate. rewrite Hnew.
    repeat (split; [reflexivity || assumption|]).
    exists c', fetch, r. split; assumption.
  - intros epics pid filter w.
    destruct (Iterate_first_fetch epics (newEpicsRequestFunc pid filter) w
                (newEpicsRequestFunc_unpaged pid filter))
      as (probe & c & Hnew & Hlim & _ & c' & fetch & r & HN & Hrq).
    exists probe, (mkTypedCursor c []).
    unfold EpicService_Iterate. rewrite Hnew.
    repeat (split; [reflexivity || assumption|]).
    exists c', fetch, r. split; assumption.
  - intros stories pid filter w fuel Hne Hf.
    rewrite StoryService_List_unfold.
    apply list_with_limit_exact_single_fetch; auto.
  - intros epics pid filter w fuel Hne Hf.
    rewrite EpicService_List_unfold.
    apply list_with_limit_exact_single_fetch; auto.
Qed.

Lemma Iterate_page_size_is_PageLimit_witness :
  (exists probe fetch,
      StoryService_List (serve_exact stories35) 36 1 no_filter []
      = Some ([] ++ [probe; fetch], (stories35, None))
      /\ page_requests [probe; fetch] = [(0, Z.of_nat (List.length stories35))])
  /\ Z.of_nat (List.length stories35) = 35
  /\ (exists probe c,
         StoryService_Iterate (serve_exact stories35) 1 no_filter []
         = ([] ++ [probe], (Some c, None))
         /\ limit (tc_cursor c) = PageLimit /\ PageLimit = 10
         /\ buff c = []
         /\ exists c' fetch r,
             StoryCursor_Next (cursor_next (serve_exact stories35)) c ([] ++ [probe])
             = ((c', [] ++ [probe; fetch]), r)
             /\ page_requests [probe; fetch] = [(0, 10)]).
Proof.
  destruct Iterate_page_size_is_PageLimit as (HI & _ & HL & _).
  split; [|split; [reflexivity|apply HI]].
  apply HL; [discriminate|simpl; lia].
Defined.

(** * Properties of the other endpoints *)

(** ** The embedding at work *)

Example arrayToString_examples :
  arrayToString [1; 2; 3] "," = "1,2,3"
  /\ arrayToString [] "," = EmptyString
  /\ arrayToString [-5] "," = "-5"
  /\ arrayToString [10; -20; 0] "][" = "10][-20][0".
Proof. repeat split. Qed.

Example strings_Replace_examples :
  strings_Replace "aaa" "aa" "b" = "ba"
  /\ strings_Replace "abc" EmptyString "-" = "-a-b-c-"
  /\ strings_Trim "[[a]b]]" "[]" = "a]b".
Proof. repeat split. Qed.

Example QueryUnescape_examples :
  QueryUnescape "label%3Aa+b%26c" = Some "label:a b&c"
  /\ QueryUnescape "%zz" = None
  /\ QueryUnescape "100%" = None.
Proof. repeat split. Qed.

(** Project id 0 is refused before the request is looked at, even a nil
    one; with another project id a nil request makes [Create] panic. *)
Example Create_with_a_nil_request :
  StoryService_Create (building refusing) 0 None []
  = Returns ([], (None, None, Some (ErrFieldNotSet "project_id")))
  /\ StoryService_Create (building refusing) 7 None [] = Panics.
Proof. split; reflexivity. Qed.

(** A client that cannot build the request sends nothing and hands the
    builder's error back; a client that builds it sends it. *)
Example Get_when_the_request_cannot_be_built :
  StoryService_Get_on (unable (DecodeError "parse") refusing) 7 12 []
  = ([], (None, None, Some (DecodeError "parse")))
  /\ StoryService_Get_on (building refusing) 7 12 []
     = ([mkWireExchange (mkWireRequest "GET" "projects/7/stories/12" None)
                        (Failure None (TransportError 503))],
        (None, None, Some (TransportError 503))).
Proof. split; reflexivity. Qed.

(** ** Decimal integers *)

Lemma uint_digits (d : Decimal.uint) :
  string_forallb int_char (NilEmpty.string_of_uint d) = true.
Proof. induction d; simpl; auto. Qed.

Lemma Sprint_int_chars (n : Z) :
  string_forallb int_char (Sprint_int n) = true.
Proof.
  unfold Sprint_int.
  destruct (Z.to_int n) as [d|d]; simpl;
    destruct d; try reflexivity; apply (uint_digits (_ _)).
Qed.

Lemma Sprint_int_nonempty (n : Z) : Sprint_int n <> EmptyString.
Proof.
  unfold Sprint_int.
  destruct (Z.to_int n) as [d|d]; simpl; destruct d; discriminate.
Qed.

Lemma Sprint_int_inj (n m : Z) : Sprint_int n = Sprint_int m -> n = m.
Proof.
  unfold Sprint_int. intros H.
  apply DecimalZ.to_int_inj.
  assert (Hnil : forall z, Z.to_int z <> Decimal.Pos Decimal.Nil
                           /\ Z.to_int z <> Decimal.Neg Decimal.Nil).
  { intros [|p|p]; simpl; split; try discriminate;
      intros Hp; injection Hp as Hp;
      now apply DecimalPos.Unsigned.to_uint_nonnil in Hp. }
  apply (f_equal NilZero.int_of_string) in H.
  rewrite !NilZero.isi in H by apply Hnil.
  now injection H.
Qed.

Lemma int_char_facts (c : ascii) :
  int_char c = true ->
  (c =? " ")%char = false /\ in_cutset "[]" c = false
  /\ shouldEscape c = false /\ (c =? "/")%char = false.
Proof.
  destruct c as [b0 b1 b2 b3 b4 b5 b6 b7].
  destruct b0, b1, b2, b3, b4, b5, b6, b7; vm_compute; intros H;
    try discriminate H; repeat split.
Qed.

(** ** Strings *)

Lemma append_assoc_s (a b c : string) :
  ((a ++ b) ++ c)%string = (a ++ (b ++ c))%string.
Proof. induction a as [|x a IH]; simpl; [reflexivity|now rewrite IH]. Qed.

Lemma append_nil_r_s (a : string) : (a ++ EmptyString)%string = a.
Proof. induction a as [|x a IH]; simpl; [reflexivity|now rewrite IH]. Qed.

Lemma string_last (p : ascii -> bool) (s : string) :
  s <> EmptyString -> string_forallb p s = true ->
  exists r c, s = (r ++ String c EmptyString)%string /\ p c = true.
Proof.
  induction s as [|x s IH]; intros Hne Hall; [contradiction|].
  simpl in Hall. apply andb_true_iff in Hall. destruct Hall as [Hx Hs].
  destruct s as [|y s'].
  - exists EmptyString, x. split; [reflexivity|assumption].
  - destruct (IH ltac:(discriminate) Hs) as (r & c & Heq & Hc).
    exists (String x r), c. simpl. rewrite <- Heq. auto.
Qed.

Lemma concat_map_cons (sep : string) (x : string) (l : list string) :
  String.concat sep (x :: l)
  = match l with
    | [] => x
    | _ :: _ => (x ++ sep ++ String.concat sep l)%string
    end.
Proof. destruct l; reflexivity. Qed.

(** A non-empty list of strings that each begin and end with a character
    satisfying [p] is joined into a string that does so too, whatever
    the separator. *)
Lemma concat_ends (p : ascii -> bool) (sep : string) (l : list string) :
  l <> [] ->
  Forall (fun s => s <> EmptyString /\ string_forallb p s = true) l ->
  (exists c r, String.concat sep l = String c r /\ p c = true)
  /\ (exists r c, String.concat sep l = (r ++ String c EmptyString)%string
                  /\ p c = true).
Proof.
  induction l as [|x l IH]; intros Hne Hall; [contradiction|].
  inversion Hall as [|? ? [Hx Hpx] Hl]; subst. rewrite concat_map_cons.
  destruct l as [|y l'].
  - split.
    + destruct x as [|c r]; [contradiction|]. simpl in Hpx.
      apply andb_true_iff in Hpx. exists c, r. tauto.
    + now apply string_last.
  - destruct (IH ltac:(discriminate) Hl) as [_ (r & c & Heq & Hc)]. split.
    + destruct x as [|c0 r0]; [contradiction|]. simpl in Hpx.
      apply andb_true_iff in Hpx.
      exists c0, (r0 ++ sep ++ String.concat sep (y :: l'))%string.
      split; [reflexivity|tauto].
    + rewrite Heq. exists (x ++ sep ++ r)%string, c.
      rewrite !append_assoc_s. auto.
Qed.

Lemma concat_empty_iff (sep : string) (l : list string) :
  Forall (fun s => s <> EmptyString) l ->
  (String.concat sep l = EmptyString <-> l = []).
Proof.
  intros Hall. split; [|intros ->; reflexivity].
  destruct l as [|x l]; [reflexivity|]. intros H.
  inversion Hall as [|? ? Hx Hl]; subst. rewrite concat_map_cons in H.
  destruct x as [|c r]; [contradiction|].
  destruct l; discriminate H.
Qed.

Lemma Sprint_int_items (a : list Z) :
  Forall (fun s => s <> EmptyString /\ string_forallb int_char s = true)
         (map Sprint_int a).
Proof.
  induction a as [|n a IH]; constructor; [|assumption].
  split; [apply Sprint_int_nonempty|apply Sprint_int_chars].
Qed.

(** ** [strings.Replace] of the space *)

Lemma prefix_nil (s : string) : String.prefix EmptyString s = true.
Proof. destruct s; reflexivity. Qed.

Lemma Replace_space_cons (new : string) (c : ascii) (r : string) :
  Replace_from 0 " " new (String c r)
  = if (c =? " ")%char then (new ++ Replace_from 0 " " new r)%string
    else String c (Replace_from 0 " " new r).
Proof.
  cbn [Replace_from String.prefix].
  destruct (ascii_dec " " c) as [<-|Hne].
  - rewrite prefix_nil. reflexivity.
  - destruct (Ascii.eqb_spec c " ") as [->|_]; [now elim Hne|reflexivity].
Qed.

Lemma Replace_space_app (new x y : string) :
  Replace_from 0 " " new (x ++ y)
  = (Replace_from 0 " " new x ++ Replace_from 0 " " new y)%string.
Proof.
  induction x as [|c x IH]; [reflexivity|].
  change ((String c x ++ y)%string) with (String c (x ++ y)).
  rewrite !Replace_space_cons, IH.
  destruct (c =? " ")%char; [now rewrite append_assoc_s|reflexivity].
Qed.

Lemma Replace_space_id (new x : string) :
  string_forallb int_char x = true -> Replace_from 0 " " new x = x.
Proof.
  induction x as [|c x IH]; intros H; [reflexivity|].
  simpl in H. apply andb_true_iff in H. destruct H as [Hc Hx].
  rewrite Replace_space_cons.
  destruct (int_char_facts c Hc) as (-> & _). now rewrite IH.
Qed.

Lemma Replace_space_concat (new : string) (l : list string) :
  Forall (fun s => s <> EmptyString /\ string_forallb int_char s = true) l ->
  Replace_from 0 " " new (String.concat " " l) = String.concat new l.
Proof.
  induction l as [|x l IH]; intros Hall; [reflexivity|].
  inversion Hall as [|? ? [_ Hx] Hl]; subst. rewrite !concat_map_cons.
  destruct l as [|y l'].
  - now apply Replace_space_id.
  - rewrite !Replace_space_app, Replace_space_id by assumption.
    rewrite IH by assumption.
    rewrite Replace_space_cons. simpl (Replace_from _ _ _ EmptyString).
    simpl (_ =? _)%char. cbv iota. now rewrite append_nil_r_s.
Qed.

Lemma Replace_Sprint_ints (a : list Z) (delim : string) :
  strings_Replace (Sprint_ints a) " " delim
  = ("[" ++ String.concat delim (map Sprint_int a) ++ "]")%string.
Proof.
  unfold strings_Replace, Sprint_ints.
  destruct (String.eqb_spec " " delim) as [<-|_]; [reflexivity|].
  change (String "[" (String.concat " " (map Sprint_int a) ++ "]"))
    with ("[" ++ (String.concat " " (map Sprint_int a) ++ "]"))%string.
  rewrite !Replace_space_app, Replace_space_concat by apply Sprint_int_items.
  reflexivity.
Qed.

(** ** [strings.Trim] *)

Lemma TrimRight_keep (cutset s : string) (c : ascii) :
  in_cutset cutset c = false ->
  strings_TrimRight (s ++ String c EmptyString) cutset
  = (s ++ String c EmptyString)%string.
Proof.
  intros Hc. induction s as [|x s IH]; simpl.
  - now rewrite Hc.
  - rewrite IH. destruct s; reflexivity.
Qed.

Lemma TrimRight_strip (cutset s : string) (c : ascii) :
  in_cutset cutset c = true ->
  strings_TrimRight (s ++ String c EmptyString) cutset
  = strings_TrimRight s cutset.
Proof.
  intros Hc. induction s as [|x s IH]; simpl.
  - now rewrite Hc.
  - now rewrite IH.
Qed.

Lemma Trim_brackets (m : string) :
  m = EmptyString
  \/ ((exists c r, m = String c r /\ int_char c = true)
      /\ (exists r c, m = (r ++ String c EmptyString)%string
                      /\ int_char c = true)) ->
  strings_Trim ("[" ++ m ++ "]") "[]" = m.
Proof.
  intros [->|[(c0 & r0 & Hfirst & Hc0) (r1 & c1 & Hlast & Hc1)]];
    [reflexivity|].
  unfold strings_Trim.
  change ("[" ++ m ++ "]")%string with (("[" ++ m) ++ "]")%string.
  rewrite TrimRight_strip by reflexivity.
  rewrite Hlast.
  change ("[" ++ r1 ++ String c1 EmptyString)%string
    with (("[" ++ r1) ++ String c1 EmptyString)%string.
  rewrite TrimRight_keep by apply (int_char_facts c1 Hc1).
  rewrite append_assoc_s, <- Hlast, Hfirst. simpl.
  destruct (int_char_facts c0 Hc0) as (_ & Hcut & _).
  simpl in Hcut. now rewrite Hcut.
Qed.

Lemma arrayToString_concat (a : list Z) (delim : string) :
  arrayToString a delim = String.concat delim (map Sprint_int a).
Proof.
  unfold arrayToString.
  rewrite Replace_Sprint_ints. apply Trim_brackets.
  destruct a as [|n a]; [left; reflexivity|right].
  apply concat_ends; [discriminate|apply Sprint_int_items].
Qed.

Lemma arrayToString_empty_iff (a : list Z) (delim : string) :
  arrayToString a delim = EmptyString <-> a = [].
Proof.
  rewrite arrayToString_concat. rewrite concat_empty_iff.
  - destruct a; split; intros H; try reflexivity; discriminate H.
  - induction a; constructor; [apply Sprint_int_nonempty|assumption].
Qed.

(** [arrayToString] joins the decimal forms of the numbers with the
    delimiter, whatever the delimiter is: the brackets of [fmt.Sprint] are
    gone, none of the delimiter's own characters is trimmed, and the
    result is empty exactly for an empty slice. *)
Theorem arrayToString_joins :
  forall (a : list Z) (delim : string),
    arrayToString a delim = String.concat delim (map Sprint_int a)
    /\ (arrayToString a delim = EmptyString <-> a = []).
Proof.
  intros a delim. split;
    [apply arrayToString_concat|apply arrayToString_empty_iff].
Qed.

(** ** [url.QueryEscape] *)

Lemma QueryEscape_app (x y : string) :
  QueryEscape (x ++ y) = (QueryEscape x ++ QueryEscape y)%string.
Proof.
  induction x as [|c x IH]; [reflexivity|].
  cbn [append QueryEscape]. rewrite IH.
  destruct (c =? " ")%char; [reflexivity|].
  destruct (shouldEscape c); reflexivity.
Qed.

Lemma QueryEscape_int (x : string) :
  string_forallb int_char x = true -> QueryEscape x = x.
Proof.
  induction x as [|c x IH]; intros H; [reflexivity|].
  simpl in H. apply andb_true_iff in H. destruct H as [Hc Hx].
  destruct (int_char_facts c Hc) as (Hsp & _ & Hesc & _).
  cbn [QueryEscape]. rewrite Hsp, Hesc, IH by assumption. reflexivity.
Qed.

Lemma QueryEscape_comma_list (l : list string) :
  Forall (fun s => s <> EmptyString /\ string_forallb int_char s = true) l ->
  QueryEscape (String.concat "," l) = String.concat "%2C" l.
Proof.
  induction l as [|x l IH]; intros Hall; [reflexivity|].
  inversion Hall as [|? ? [_ Hx] Hl]; subst. rewrite !concat_map_cons.
  destruct l as [|y l'].
  - now apply QueryEscape_int.
  - rewrite !QueryEscape_app, QueryEscape_int by assumption.
    rewrite IH by assumption. reflexivity.
Qed.

Lemma upperhex_safe (n : N) : shouldEscape (upperhex n) = false.
Proof.
  unfold upperhex.
  repeat match goal with
         | |- context [match ?x with _ => _ end] => destruct x
         end; reflexivity.
Qed.

Lemma query_safe_unreserved (c : ascii) :
  query_safe c = true -> unreserved_in_query c = true.
Proof.
  destruct c as [b0 b1 b2 b3 b4 b5 b6 b7].
  destruct b0, b1, b2, b3, b4, b5, b6, b7; vm_compute; intros H;
    try discriminate H; reflexivity.
Qed.

Lemma QueryEscape_safe (s : string) :
  string_forallb query_safe (QueryEscape s) = true.
Proof.
  induction s as [|c s IH]; [reflexivity|].
  cbn [QueryEscape].
  destruct (c =? " ")%char; [exact IH|].
  destruct (shouldEscape c) eqn:Hesc.
  - cbn [string_forallb]. unfold query_safe at 2 3.
    rewrite !upperhex_safe, IH. reflexivity.
  - cbn [string_forallb]. unfold query_safe at 1.
    rewrite Hesc, IH. reflexivity.
Qed.

Lemma string_forallb_impl (p q : ascii -> bool) (s : string) :
  (forall c, p c = true -> q c = true) ->
  string_forallb p s = true -> string_forallb q s = true.
Proof.
  intros Hpq. induction s as [|c s IH]; [reflexivity|]. simpl.
  intros H. apply andb_true_iff in H. destruct H as [Hc Hs].
  now rewrite (Hpq c Hc), IH.
Qed.

Lemma hex_round_trip (c : ascii) :
  match unhex (upperhex (N.shiftr (N_of_ascii c) 4)),
        unhex (upperhex (N.land (N_of_ascii c) 15)) with
  | Some hi, Some lo => ascii_of_N (hi * 16 + lo) = c
  | _, _ => False
  end.
Proof.
  destruct c as [b0 b1 b2 b3 b4 b5 b6 b7].
  destruct b0, b1, b2, b3, b4, b5, b6, b7; vm_compute; reflexivity.
Qed.

Lemma unescaped_is_plain (c : ascii) :
  shouldEscape c = false ->
  (c =? "%")%char = false /\ (c =? "+")%char = false.
Proof.
  destruct c as [b0 b1 b2 b3 b4 b5 b6 b7].
  destruct b0, b1, b2, b3, b4, b5, b6, b7; vm_compute; intros H;
    try discriminate H; split; reflexivity.
Qed.

Lemma QueryUnescape_QueryEscape (s : string) :
  QueryUnescape (QueryEscape s) = Some s.
Proof.
  induction s as [|c s IH]; [reflexivity|].
  cbn [QueryEscape].
  destruct (Ascii.eqb_spec c " ") as [->|Hsp].
  - cbn [QueryUnescape]. rewrite IH. reflexivity.
  - destruct (shouldEscape c) eqn:Hesc.
    + cbn [QueryUnescape]. simpl ("%" =? "%")%char. cbv iota.
      pose proof (hex_round_trip c) as Hhex.
      destruct (unhex (upperhex (N.shiftr (N_of_ascii c) 4))) as [hi|];
        [|contradiction].
      destruct (unhex (upperhex (N.land (N_of_ascii c) 15))) as [lo|];
        [|contradiction].
      rewrite IH, Hhex. reflexivity.
    + destruct (unescaped_is_plain c Hesc) as [Hpc Hpl].
      cbn [QueryUnescape]. rewrite Hpc, IH, Hpl. reflexivity.
Qed.

Lemma QueryEscape_inj (a b : string) :
  QueryEscape a = QueryEscape b -> a = b.
Proof.
  intros H. apply (f_equal QueryUnescape) in H.
  rewrite !QueryUnescape_QueryEscape in H. now injection H.
Qed.

(** ** Request URLs *)

(** Two strings made of a decimal number, a slash and a rest are equal
    only if the numbers and the rests are. *)
Lemma split_at_slash (a b x y : string) :
  string_forallb int_char a = true ->
  string_forallb int_char b = true ->
  (a ++ String "/" x)%string = (b ++ String "/" y)%string ->
  a = b /\ x = y.
Proof.
  revert b. induction a as [|c a IH]; intros [|d b] Ha Hb H; simpl in *.
  - injection H as ->. auto.
  - injection H as <- _. apply andb_true_iff in Hb. destruct Hb as [Hd _].
    discriminate Hd.
  - injection H as -> _. apply andb_true_iff in Ha. destruct Ha as [Hc _].
    discriminate Hc.
  - injection H as -> H.
    apply andb_true_iff in Ha. apply andb_true_iff in Hb.
    destruct (IH b (proj2 Ha) (proj2 Hb) H) as [-> ->]. auto.
Qed.

(** The same for an id in front of a slash. *)
Lemma split_id_slash (n m : Z) (x y : string) :
  (Sprint_int n ++ String "/" x)%string = (Sprint_int m ++ String "/" y)%string ->
  n = m /\ x = y.
Proof.
  intros H. apply split_at_slash in H; try apply Sprint_int_chars.
  destruct H as [H ->]. split; [now apply Sprint_int_inj|reflexivity].
Qed.

Lemma last_url_snoc {D : Type} (w : WireWorld D) (ex : WireExchange D) :
  last_url (w ++ [ex]) = Some (wire_url (wx_request ex)).
Proof. unfold last_url. now rewrite rev_unit. Qed.

Lemma last_request_url_snoc {D : Type} (w : World D) (ex : Exchange D) :
  last_request_url (w ++ [ex]) = Some (req_url (ex_request ex)).
Proof. unfold last_request_url. now rewrite rev_unit. Qed.

Lemma newStoriesRequestFunc_url (projectId : Z) (filter : string) :
  req_url (newStoriesRequestFunc projectId filter tt)
  = ("projects/" ++ Sprint_int projectId ++ "/stories"
       ++ filter_query filter)%string.
Proof.
  unfold newStoriesRequestFunc, filter_query, NewRequest. cbn [fst req_url].
  destruct (filter =? EmptyString)%string.
  - now rewrite append_nil_r_s.
  - now rewrite !append_assoc_s.
Qed.

Lemma newEpicsRequestFunc_url (projectID : Z) (filter : string) :
  req_url (newEpicsRequestFunc projectID filter tt)
  = ("projects/" ++ Sprint_int projectID ++ "/epics"
       ++ filter_query filter)%string.
Proof.
  unfold newEpicsRequestFunc, filter_query, NewRequest. cbn [fst req_url].
  destruct (filter =? EmptyString)%string.
  - now rewrite append_nil_r_s.
  - now rewrite !append_assoc_s.
Qed.

Lemma filter_query_inj (f g : string) :
  filter_query f = filter_query g -> f = g.
Proof.
  unfold filter_query.
  destruct (String.eqb_spec f EmptyString) as [->|Hf];
    destruct (String.eqb_spec g EmptyString) as [->|Hg];
    intros H; try reflexivity; try discriminate H.
  apply (append_cancel_l "?filter=") in H. now apply QueryEscape_inj.
Qed.

(** The query string of a listing carries the filter, and nothing of the
    filter can end the parameter or start another: whatever the filter,
    what follows [?filter=] holds no [&], [=], [?], [#], [/] and no
    space; an empty filter adds no query string. *)
Theorem filter_cannot_break_the_query :
  forall (projectId : Z) (filter : string),
    let escaped := QueryEscape filter in
    string_forallb unreserved_in_query escaped = true
    /\ req_url (newStoriesRequestFunc projectId filter tt)
       = ("projects/" ++ Sprint_int projectId ++ "/stories"
            ++ if (filter =? EmptyString)%string then EmptyString
               else "?filter=" ++ escaped)%string
    /\ req_url (newEpicsRequestFunc projectId filter tt)
       = ("projects/" ++ Sprint_int projectId ++ "/epics"
            ++ if (filter =? EmptyString)%string then EmptyString
               else "?filter=" ++ escaped)%string.
Proof.
  intros projectId filter escaped. split; [|split].
  - apply (string_forallb_impl query_safe); [apply query_safe_unreserved|].
    apply QueryEscape_safe.
  - apply newStoriesRequestFunc_url.
  - apply newEpicsRequestFunc_url.
Qed.

(** The request of a listing determines what was asked for: the filter is
    read back from its escaped form by [url.QueryUnescape], and two
    requests built by [newStoriesRequestFunc], or two built by
    [newEpicsRequestFunc], have the same URL only for the same project and
    the same filter. *)
Theorem listing_request_determines_project_and_filter :
  (forall filter, QueryUnescape (QueryEscape filter) = Some filter)
  /\ (forall p f p' f',
         req_url (newStoriesRequestFunc p f tt)
         = req_url (newStoriesRequestFunc p' f' tt) ->
         p = p' /\ f = f')
  /\ (forall p f p' f',
         req_url (newEpicsRequestFunc p f tt)
         = req_url (newEpicsRequestFunc p' f' tt) ->
         p = p' /\ f = f').
Proof.
  split; [exact QueryUnescape_QueryEscape|].
  split; intros p f p' f' H.
  - rewrite !newStoriesRequestFunc_url in H.
    apply (append_cancel_l "projects/") in H.
    apply split_id_slash in H. destruct H as [-> H].
    apply (append_cancel_l "stories") in H.
    split; [reflexivity|now apply filter_query_inj].
  - rewrite !newEpicsRequestFunc_url in H.
    apply (append_cancel_l "projects/") in H.
    apply split_id_slash in H. destruct H as [-> H].
    apply (append_cancel_l "epics") in H.
    split; [reflexivity|now apply filter_query_inj].
Qed.

(** [GetBulk] builds one GET: on [projects/<id>/stories/bulk] alone when
    no id is given, and otherwise with the query [?ids=] followed by the
    ids in decimal, separated by the escaped comma [%2C].  If the client
    cannot build it, nothing is sent and the builder's error comes back
    with no story and no response; otherwise the request is sent once,
    and [GetBulk] returns the decoded stories, or no story and the error
    of the exchange. *)
Theorem GetBulk_sends_the_ids_comma_separated :
  forall (client : Client (list (option Story)))
         (projectId : Z) (storyIds : list Z)
         (w : WireWorld (list (option Story))),
    let url :=
      ("projects/" ++ Sprint_int projectId ++ "/stories/bulk"
         ++ match storyIds with
            | [] => EmptyString
            | _ :: _ =>
                "?ids=" ++ String.concat "%2C" (map Sprint_int storyIds)
            end)%string in
    let req := mkWireRequest "GET" url None in
    StoryService_GetBulk client projectId storyIds w
    = match build_error client "GET" url None with
      | Some e => (w, ([], None, Some e))
      | None =>
          (w ++ [mkWireExchange req (round_trip client w req)],
           match round_trip client w req with
           | Success resp bulkStories => (bulkStories, Some resp, None)
           | Failure resp e => ([], resp, Some e)
           end)
      end.
Proof.
  intros client projectId storyIds w url req.
  assert (Hurl :
            (let u := ("projects/" ++ Sprint_int projectId
                         ++ "/stories/bulk")%string in
             if (arrayToString storyIds "," =? EmptyString)%string then u
             else (u ++ "?ids=" ++ QueryEscape (arrayToString storyIds ","))%string)
            = url).
  { unfold url. cbv zeta.
    destruct (String.eqb_spec (arrayToString storyIds ",") EmptyString)
      as [He|Hne].
    - apply arrayToString_empty_iff in He. subst storyIds.
      now rewrite append_nil_r_s.
    - destruct storyIds as [|n ids];
        [elim Hne; now apply arrayToString_empty_iff|].
      rewrite arrayToString_concat, QueryEscape_comma_list
        by apply Sprint_int_items.
      now rewrite !append_assoc_s. }
  unfold StoryService_GetBulk, Client_NewRequest, NewWireRequest, WireDo.
  cbv zeta in Hurl |- *. rewrite Hurl.
  destruct (build_error client "GET" url None); [reflexivity|].
  cbn [fst]. fold req. destruct (round_trip client w req); reflexivity.
Qed.

Lemma some_eq {A : Type} (a b : A) : Some a = Some b -> a = b.
Proof. congruence. Qed.

Lemma StoryService_Get_log (client : WireTransport Story)
      (projectId storyId : Z) (w : WireWorld Story) :
  exists out,
    fst (StoryService_Get client projectId storyId w)
    = w ++ [mkWireExchange
              (mkWireRequest "GET"
                 ("projects/" ++ Sprint_int projectId ++ "/stories/"
                    ++ Sprint_int storyId) None) out].
Proof.
  unfold StoryService_Get, NewWireRequest, WireDo. cbv zeta.
  match goal with |- context [client w ?r] => destruct (client w r) end;
    eexists; reflexivity.
Qed.

Lemma StoryService_UpdateBlocker_log (client : WireTransport Blocker)
      (projectId storyId blockerId : Z) (blocker : option BlockerRequest)
      (w : WireWorld Blocker) :
  exists out,
    fst (StoryService_UpdateBlocker client projectId storyId blockerId
                                    blocker w)
    = w ++ [mkWireExchange
              (mkWireRequest "PUT"
                 ("projects/" ++ Sprint_int projectId ++ "/stories/"
                    ++ Sprint_int storyId ++ "/blockers/"
                    ++ Sprint_int blockerId)
                 (Some (BlockerRequestPayload blocker))) out].
Proof.
  unfold StoryService_UpdateBlocker, NewWireRequest, WireDo. cbv zeta.
  match goal with |- context [client w ?r] => destruct (client w r) end;
    eexists; reflexivity.
Qed.

Lemma EpicService_Update_log (client : Transport Epic)
      (projectID epicID : Z) (epic : EpicRequest) (w : World Epic) :
  exists out,
    fst (EpicService_Update client projectID epicID epic w)
    = w ++ [mkExchange
              (mkRequest "PUT"
                 ("projects/" ++ Sprint_int projectID ++ "/stories/"
                    ++ Sprint_int epicID)
                 (Some (EpicRequestBody epic)) None) out].
Proof.
  unfold EpicService_Update, NewRequest, Do. cbv zeta.
  match goal with |- context [client w ?r] => destruct (client w r) end;
    eexists; reflexivity.
Qed.

Lemma story_path_inj (p s p' s' : Z) :
  ("projects/" ++ Sprint_int p ++ "/stories/" ++ Sprint_int s)%string
  = ("projects/" ++ Sprint_int p' ++ "/stories/" ++ Sprint_int s')%string ->
  p = p' /\ s = s'.
Proof.
  intros H. apply (append_cancel_l "projects/") in H.
  apply split_id_slash in H. destruct H as [-> H].
  apply (append_cancel_l "stories/") in H.
  split; [reflexivity|now apply Sprint_int_inj].
Qed.

(** The URL a story is read at names that story and no other: two calls
    of [Get] address the same URL only for the same project and story
    ids, and two calls of [UpdateBlocker] only for the same project,
    story and blocker ids. *)
Theorem resource_URL_determines_the_ids :
  (forall (client client' : WireTransport Story) p s p' s' w w',
      last_url (fst (StoryService_Get client p s w))
      = last_url (fst (StoryService_Get client' p' s' w')) ->
      p = p' /\ s = s')
  /\
  (forall (client client' : WireTransport Blocker) p s b p' s' b'
          blocker blocker' w w',
      last_url (fst (StoryService_UpdateBlocker client p s b blocker w))
      = last_url (fst (StoryService_UpdateBlocker client' p' s' b'
                                                  blocker' w')) ->
      p = p' /\ s = s' /\ b = b').
Proof.
  split.
  - intros client client' p s p' s' w w' H.
    destruct (StoryService_Get_log client p s w) as [out E].
    destruct (StoryService_Get_log client' p' s' w') as [out' E'].
    rewrite E, E', !last_url_snoc in H.
    cbn [wire_url wx_request] in H. apply some_eq in H.
    now apply story_path_inj.
  - intros client client' p s b p' s' b' blocker blocker' w w' H.
    destruct (StoryService_UpdateBlocker_log client p s b blocker w)
      as [out E].
    destruct (StoryService_UpdateBlocker_log client' p' s' b' blocker' w')
      as [out' E'].
    rewrite E, E', !last_url_snoc in H.
    cbn [wire_url wx_request] in H. apply some_eq in H.
    apply (append_cancel_l "projects/") in H.
    apply split_id_slash in H. destruct H as [-> H].
    apply (append_cancel_l "stories/") in H.
    apply split_id_slash in H. destruct H as [-> H].
    apply (append_cancel_l "blockers/") in H.
    apply Sprint_int_inj in H. auto.
Qed.

(** [EpicService.Update] addresses a story: the URL it sends its PUT to
    is the URL [StoryService.Get] reads a story at exactly when the
    project ids agree and the story id is the epic id. *)
Theorem Epic_Update_addresses_the_story_with_the_epic_id :
  forall (epics : Transport Epic) (stories : WireTransport Story)
         (projectID epicID : Z) (epic : EpicRequest)
         (projectId storyId : Z) (w : World Epic) (w' : WireWorld Story),
    last_request_url (fst (EpicService_Update epics projectID epicID epic w))
    = last_url (fst (StoryService_Get stories projectId storyId w'))
    <-> projectID = projectId /\ epicID = storyId.
Proof.
  intros epics stories projectID epicID epic projectId storyId w w'.
  destruct (EpicService_Update_log epics projectID epicID epic w) as [out ->].
  destruct (StoryService_Get_log stories projectId storyId w') as [out' ->].
  rewrite last_request_url_snoc, last_url_snoc.
  cbn [wire_url wx_request req_url ex_request].
  split.
  - intros H. apply some_eq in H. now apply story_path_inj.
  - intros [-> ->]. reflexivity.
Qed.

(** ** Validation before sending *)

Ltac built_or_not client w :=
  unfold Client_NewRequest, builds_and_sends, NewWireRequest, WireDo;
  cbv zeta; cbn [fst];
  destruct (build_error client _ _ _);
  [|destruct (round_trip client w _)];
  cbv beta iota.

(** [Create], of a story and of an epic, checks the project id first and
    the name second, and neither builds nor sends anything until both
    pass: with project id 0 it returns the error on [project_id] whatever
    the request is, even a nil one; with a nil request and another
    project id it panics; with an empty name it returns the error on
    [name]; in these cases the log is untouched.  Otherwise it builds one
    POST, with the request as its body, on the collection of the project:
    if the client cannot build it the log is again untouched and the
    builder's error is returned; if it can, the POST is sent exactly once.
    A value is returned exactly when no error is. *)
Theorem Create_validates_before_sending :
  (forall (client : Client Story) projectId story w,
      match StoryService_Create client projectId story w with
      | Panics => projectId <> 0 /\ story = None
      | Returns (w', (newStory, resp, err)) =>
          (projectId = 0 /\ w' = w /\ newStory = None /\ resp = None
           /\ err = Some (ErrFieldNotSet "project_id"))
          \/ (projectId <> 0
              /\ (exists s, story = Some s
                            /\ StoryRequest_Name s = EmptyString)
              /\ w' = w /\ newStory = None /\ resp = None
              /\ err = Some (ErrFieldNotSet "name"))
          \/ (projectId <> 0
              /\ (exists s, story = Some s
                            /\ StoryRequest_Name s <> EmptyString)
              /\ builds_and_sends client "POST"
                    ("projects/" ++ Sprint_int projectId ++ "/stories")
                    (Some (StoryRequestPayload story)) w w' resp err
              /\ value_xor_error newStory err)
      end)
  /\
  (forall (client : Client Epic) projectID epic w,
      match EpicService_Create client projectID epic w with
      | Panics => projectID <> 0 /\ epic = None
      | Returns (w', (newEpic, resp, err)) =>
          (projectID = 0 /\ w' = w /\ newEpic = None /\ resp = None
           /\ err = Some (ErrFieldNotSet "project_id"))
          \/ (projectID <> 0
              /\ (exists e, epic = Some e
                            /\ EpicRequest_Name e = EmptyString)
              /\ w' = w /\ newEpic = None /\ resp = None
              /\ err = Some (ErrFieldNotSet "name"))
          \/ (projectID <> 0
              /\ (exists e, epic = Some e
                            /\ EpicRequest_Name e <> EmptyString)
              /\ builds_and_sends client "POST"
                    ("projects/" ++ Sprint_int projectID ++ "/epics")
                    (Some (EpicRequestPayload epic)) w w' resp err
              /\ value_xor_error newEpic err)
      end).
Proof.
  split.
  - intros client projectId story w. unfold StoryService_Create.
    destruct (Z.eqb_spec projectId 0) as [->|Hp]; [left; tauto|].
    destruct story as [s|]; [|tauto].
    destruct (String.eqb_spec (StoryRequest_Name s) EmptyString) as [Hn|Hn].
    + right. left. repeat split; eauto.
    + built_or_not client w; right; right;
        (split; [assumption|]); (split; [eauto|]); (split; [auto|]);
        [left|right|left]; split; congruence.
  - intros client projectID epic w. unfold EpicService_Create.
    destruct (Z.eqb_spec projectID 0) as [->|Hp]; [left; tauto|].
    destruct epic as [e|]; [|tauto].
    destruct (String.eqb_spec (EpicRequest_Name e) EmptyString) as [Hn|Hn].
    + right. left. repeat split; eauto.
    + built_or_not client w; right; right;
        (split; [assumption|]); (split; [eauto|]); (split; [auto|]);
        [left|right|left]; split; congruence.
Qed.

(** [AddTask] reads the description of the task before anything else: a
    nil task makes it panic, and an empty description makes it return the
    error on [description] with no response and the log untouched, with
    no request built.  For any other task it builds one POST on the tasks
    of the story, with the task as its body: if the client cannot build
    it nothing is sent and the builder's error is returned; if it can,
    the POST is sent exactly once and its response and error are
    returned. *)
Theorem AddTask_validates_before_sending :
  forall (client : Client unit) projectId storyId task w,
    match StoryService_AddTask client projectId storyId task w with
    | Panics => task = None
    | Returns (w', (resp, err)) =>
        ((exists t, task = Some t /\ Task_Description t = EmptyString)
         /\ w' = w /\ resp = None
         /\ err = Some (ErrFieldNotSet "description"))
        \/ ((exists t, task = Some t /\ Task_Description t <> EmptyString)
            /\ builds_and_sends client "POST"
                  ("projects/" ++ Sprint_int projectId
                     ++ "/stories/" ++ Sprint_int storyId ++ "/tasks")
                  (Some (TaskPayload task)) w w' resp err)
    end.
Proof.
  intros client projectId storyId task w. unfold StoryService_AddTask.
  destruct task as [t|]; [|reflexivity].
  destruct (String.eqb_spec (Task_Description t) EmptyString) as [Hd|Hd].
  - left. repeat split; eauto.
  - built_or_not client w; right; (split; [eauto|]); auto.
Qed.

(** ** The buffer of the typed cursors, over several calls *)

Section BufferRun.

Context {T : Type}.

Variable next : PageFetch (option T).

Lemma Next_run_of_buffer :
  forall (served rest : list (option T)) (c : TypedCursor T)
         (w : World (list (option T))),
    buff c = served ++ rest ->
    Next_times next (List.length served) c w
    = map (fun s => (s, None)) served
    /\ Next_state next (List.length served) c w
       = (mkTypedCursor (tc_cursor c) rest, w).
Proof.
  induction served as [|s served IH]; intros rest c w Hb.
  - simpl in *. destruct c as [cur b]. simpl in Hb. subst b. auto.
  - cbn [List.length Next_times Next_state map].
    rewrite (Next_nonempty next c w s (served ++ rest) Hb).
    destruct (IH rest (mkTypedCursor (tc_cursor c) (served ++ rest)) w
                 eq_refl) as [Ht Hs].
    rewrite Ht, Hs. auto.
Qed.

End BufferRun.

(** Whatever the page-fetch primitive is, a story or epic cursor that
    holds buffered items serves them one per call of [Next], in buffer
    order and each with a nil error, and over these calls neither the
    embedded cursor nor the exchange log changes: nothing is fetched
    before the buffer is used up. *)
Theorem Next_serves_the_buffer_in_order :
  (forall (next : PageFetch (option Story)) (c : StoryCursor) w served rest,
      buff c = served ++ rest ->
      Next_times next (List.length served) c w
      = map (fun s => (s, None)) served
      /\ Next_state next (List.length served) c w
         = (mkTypedCursor (tc_cursor c) rest, w))
  /\
  (forall (next : PageFetch (option Epic)) (c : EpicCursor) w served rest,
      buff c = served ++ rest ->
      Next_times next (List.length served) c w
      = map (fun e => (e, None)) served
      /\ Next_state next (List.length served) c w
         = (mkTypedCursor (tc_cursor c) rest, w)).
Proof.
  split; intros next c w served rest Hb; now apply Next_run_of_buffer.
Qed.

Lemma Next_serves_the_buffer_in_order_witness :
  Next_times (cursor_next (serve_exact stories3)) 2 buffered_story_cursor []
  = [(story_of_id 1, None); (story_of_id 2, None)]
  /\ Next_state (cursor_next (serve_exact stories3)) 2 buffered_story_cursor []
     = (mkTypedCursor (tc_cursor buffered_story_cursor) [], []).
Proof.
  destruct Next_serves_the_buffer_in_order as [HS _].
  apply (HS (cursor_next (serve_exact stories3)) buffered_story_cursor []
            [story_of_id 1; story_of_id 2] []).
  reflexivity.
Defined.

(** ** What every method returns *)

(** With a client that builds every request, [Get] and [UpdateBlocker]
    are the methods the path properties above are stated on. *)
Lemma StoryService_Get_on_building (client : WireTransport Story)
      (projectId storyId : Z) (w : WireWorld Story) :
  StoryService_Get_on (building client) projectId storyId w
  = StoryService_Get client projectId storyId w.
Proof. reflexivity. Qed.

Lemma StoryService_UpdateBlocker_on_building
      (client : WireTransport Blocker) (projectId storyId blockerId : Z)
      (blocker : option BlockerRequest) (w : WireWorld Blocker) :
  StoryService_UpdateBlocker_on (building client) projectId storyId
                                blockerId blocker w
  = StoryService_UpdateBlocker client projectId storyId blockerId blocker w.
Proof. reflexivity. Qed.

(** The methods that return one resource -- [Get], [Update], [AddComment],
    [AddBlocker] and [UpdateBlocker] -- build one request: a GET, a PUT
    or a POST on the path of the resource, with the value they are handed
    as its body.  If the client cannot build it they send nothing and
    return the builder's error, with no response.  Otherwise they make
    exactly one exchange, never a second one after a failure, and return
    its response and its error, unchanged, the error nil if it succeeded.
    In every case they return a value exactly when they return no
    error. *)
Theorem single_resource_methods_return_value_or_error :
  (forall (client : Client Story) p s w,
      let '(w', (v, resp, err)) := StoryService_Get_on client p s w in
      builds_and_sends client "GET"
        ("projects/" ++ Sprint_int p ++ "/stories/" ++ Sprint_int s)
        None w w' resp err
      /\ value_xor_error v err)
  /\ (forall (client : Client Story) p s story w,
         let '(w', (v, resp, err)) :=
           StoryService_Update client p s story w in
         builds_and_sends client "PUT"
           ("projects/" ++ Sprint_int p ++ "/stories/" ++ Sprint_int s)
           (Some (StoryRequestPayload story)) w w' resp err
         /\ value_xor_error v err)
  /\ (forall (client : Client Comment) p s comment w,
         let '(w', (v, resp, err)) :=
           StoryService_AddComment client p s comment w in
         builds_and_sends client "POST"
           ("projects/" ++ Sprint_int p ++ "/stories/" ++ Sprint_int s
              ++ "/comments")
           (Some (CommentPayload comment)) w w' resp err
         /\ value_xor_error v err)
  /\ (forall (client : Client Blocker) p s description w,
         let '(w', (v, resp, err)) :=
           StoryService_AddBlocker client p s description w in
         builds_and_sends client "POST"
           ("projects/" ++ Sprint_int p ++ "/stories/" ++ Sprint_int s
              ++ "/blockers")
           (Some (BlockerRequestPayload
                    (Some (mkBlockerRequest description None))))
           w w' resp err
         /\ value_xor_error v err)
  /\ (forall (client : Client Blocker) p s b blocker w,
         let '(w', (v, resp, err)) :=
           StoryService_UpdateBlocker_on client p s b blocker w in
         builds_and_sends client "PUT"
           ("projects/" ++ Sprint_int p ++ "/stories/" ++ Sprint_int s
              ++ "/blockers/" ++ Sprint_int b)
           (Some (BlockerRequestPayload blocker)) w w' resp err
         /\ value_xor_error v err).
Proof.
  repeat apply conj; intros client; intros.
  - unfold StoryService_Get_on. built_or_not client w;
      (split; [auto|]); [left|right|left]; split; congruence.
  - unfold StoryService_Update. built_or_not client w;
      (split; [auto|]); [left|right|left]; split; congruence.
  - unfold StoryService_AddComment. built_or_not client w;
      (split; [auto|]); [left|right|left]; split; congruence.
  - unfold StoryService_AddBlocker. built_or_not client w;
      (split; [auto|]); [left|right|left]; split; congruence.
  - unfold StoryService_UpdateBlocker_on. built_or_not client w;
      (split; [auto|]); [left|right|left]; split; congruence.
Qed.

(** The methods that list the parts of a story -- [ListTasks],
    [ListOwners], [ListComments] and [ListBlockers] -- build one GET,
    with no body, on the story's path followed by the name of the part.
    If the client cannot build it they send nothing and return the
    builder's error; otherwise they make exactly one exchange, that GET,
    and return its response and its error unchanged.  With an error they
    return no item. *)
Theorem list_methods_return_nothing_with_an_error :
  (forall (client : Client (list (option Task))) p s w,
      let '(w', (tasks, resp, err)) := StoryService_ListTasks client p s w in
      builds_and_sends client "GET"
        ("projects/" ++ Sprint_int p ++ "/stories/" ++ Sprint_int s
           ++ "/tasks")
        None w w' resp err
      /\ (err <> None -> tasks = []))
  /\ (forall (client : Client (list (option Person))) p s w,
         let '(w', (owners, resp, err)) :=
           StoryService_ListOwners client p s w in
         builds_and_sends client "GET"
           ("projects/" ++ Sprint_int p ++ "/stories/" ++ Sprint_int s
              ++ "/owners")
           None w w' resp err
         /\ (err <> None -> owners = []))
  /\ (forall (client : Client (list (option Comment))) p s w,
         let '(w', (comments, resp, err)) :=
           StoryService_ListComments client p s w in
         builds_and_sends client "GET"
           ("projects/" ++ Sprint_int p ++ "/stories/" ++ Sprint_int s
              ++ "/comments")
           None w w' resp err
         /\ (err <> None -> comments = []))
  /\ (forall (client : Client (list (option Blocker))) p s w,
         let '(w', (blockers, resp, err)) :=
           StoryService_ListBlockers client p s w in
         builds_and_sends client "GET"
           ("projects/" ++ Sprint_int p ++ "/stories/" ++ Sprint_int s
              ++ "/blockers")
           None w w' resp err
         /\ (err <> None -> blockers = [])).
Proof.
  repeat apply conj; intros client; intros.
  - unfold StoryService_ListTasks. built_or_not client w;
      (split; [auto|congruence]).
  - unfold StoryService_ListOwners. built_or_not client w;
      (split; [auto|congruence]).
  - unfold StoryService_ListComments. built_or_not client w;
      (split; [auto|congruence]).
  - unfold StoryService_ListBlockers. built_or_not client w;
      (split; [auto|congruence]).
Qed.

Lemma listing_request_determines_project_and_filter_witness :
  7 = 7 /\ "label:a b" = "label:a b".
Proof.
  destruct listing_request_determines_project_and_filter as (_ & HS & _).
  apply (HS 7 "label:a b" 7 "label:a b"). reflexivity.
Defined.

Lemma resource_URL_determines_the_ids_witness :
  (7 = 7 /\ 12 = 12) /\ (7 = 7 /\ 12 = 12 /\ 3 = 3).
Proof.
  destruct resource_URL_determines_the_ids as [HG HB].
  split.
  - apply (HG refusing refusing 7 12 7 12 [] []). reflexivity.
  - apply (HB refusing refusing 7 12 3 7 12 3 None None [] []). reflexivity.
Defined.
